(** * Curiosity Explorer: the session manager of [curiosity_agent.py]

    A shallow embedding of the credential resolver, the dialogue history,
    the answer pipeline ([ask]), the speech path ([speak],
    [_clean_for_speech]) and the command loop ([run], [main]), followed by
    the properties of the specification that are stated about them. *)

From Stdlib Require Import NArith ZArith Ascii String Lia.
From stdpp Require Import base list gmap.

Local Open Scope N_scope.

(** ** Python strings

    A Python [str] is a sequence of Unicode code points: the pictograph
    ranges of the sanitizer and the whitespace class are sets of code
    points, so a string is a list of them. *)

Module PyStr.

Definition pystr := list N.

(** An ASCII literal of the source, as code points. *)
Fixpoint of_ascii (s : string) : pystr :=
  match s with
  | EmptyString => []
  | String c s' => N_of_ascii c :: of_ascii s'
  end.

Definition in_range (lo hi c : N) : bool := (lo <=? c) && (c <=? hi).

(** [str.isspace] on one code point, also the class [\s] of [re] on
    [str] patterns: the white space of the Unicode database. *)
Definition isspace (c : N) : bool :=
  in_range 0x09 0x0D c || in_range 0x1C 0x20 c
  || (c =? 0x85) || (c =? 0xA0) || (c =? 0x1680)
  || in_range 0x2000 0x200A c
  || (c =? 0x2028) || (c =? 0x2029) || (c =? 0x202F)
  || (c =? 0x205F) || (c =? 0x3000).

Fixpoint lstrip (s : pystr) : pystr :=
  match s with
  | [] => []
  | c :: s' => if isspace c then lstrip s' else s
  end.

Definition rstrip (s : pystr) : pystr := rev (lstrip (rev s)).

(** [s.strip()] *)
Definition strip (s : pystr) : pystr := rstrip (lstrip s).

(** Truth value of a string: [""] is false. *)
Definition truthy (s : pystr) : bool :=
  match s with [] => false | _ :: _ => true end.

(** [l[start:]] with Python's treatment of a negative or too large
    [start]. *)
Definition slice_from {A} (start : Z) (l : list A) : list A :=
  let len := Z.of_nat (length l) in
  let lo := if (start <? 0)%Z then Z.max (len + start) 0
            else Z.min start len in
  drop (Z.to_nat lo) l.

(** [l[:stop]] likewise. *)
Definition slice_to {A} (stop : Z) (l : list A) : list A :=
  let len := Z.of_nat (length l) in
  let hi := if (stop <? 0)%Z then Z.max (len + stop) 0
            else Z.min stop len in
  take (Z.to_nat hi) l.

(** [str.lower] restricted to strings whose cased characters are ASCII;
    the loop itself is stated for any lowering function. *)
Definition ascii_lower_char (c : N) : N :=
  if in_range 65 90 c then c + 32 else c.

Definition ascii_lower (s : pystr) : pystr := map ascii_lower_char s.

End PyStr.

Import PyStr.

(** ** The fragment of [re] the sanitizer uses

    Every pattern of [_clean_for_speech] is a sequence of character
    classes, each taken once, optionally ([?]) or one or more times ([+],
    greedy), with at most one capturing group around a single class.  The
    matcher is the backtracking one of [re]: a repeated or optional item
    takes as much as it can and gives characters back only when the rest
    of the pattern fails. *)

Module Re.

Inductive quantifier := Once | Optional | OneOrMore.

Record item := Item {
  accepts : N -> bool;
  quant : quantifier;
  group : bool
}.

Definition pattern := list item.

(** A class under [+]: at least one character of the class, then as
    many more as there are, and one fewer each time what follows
    ([and_then], given the text taken and the text left) fails. *)
Fixpoint greedy (cls : N -> bool)
    (and_then : pystr -> pystr -> option (pystr * pystr))
    (taken s : pystr) {struct s} : option (pystr * pystr) :=
  match s with
  | c :: s' =>
    if cls c then
      match greedy cls and_then (taken ++ [c]) s' with
      | Some r => Some r
      | None => and_then (taken ++ [c]) s'
      end
    else None
  | [] => None
  end.

(** [match_here p s]: match [p] at the start of [s]; the text of group 1
    and what is left of [s]. *)
Fixpoint match_here (p : pattern) (s : pystr) {struct p}
  : option (pystr * pystr) :=
  match p with
  | [] => Some ([], s)
  | it :: p' =>
    let then_rest (taken rest : pystr) :=
      match match_here p' rest with
      | Some (g, r) => Some (if group it then taken else g, r)
      | None => None
      end in
    match quant it with
    | Once =>
      match s with
      | c :: s' => if accepts it c then then_rest [c] s' else None
      | [] => None
      end
    | Optional =>
      match s with
      | c :: s' =>
        if accepts it c then
          match then_rest [c] s' with
          | Some r => Some r
          | None => then_rest [] s
          end
        else then_rest [] s
      | [] => then_rest [] s
      end
    | OneOrMore => greedy (accepts it) then_rest [] s
    end
  end.

(** A replacement template: literal characters and [\1]. *)
Inductive piece := Lit (c : N) | Group1.

Definition expand (repl : list piece) (g : pystr) : pystr :=
  flat_map (fun x => match x with Lit c => [c] | Group1 => g end) repl.

(** [re.sub]: scan from the left, replace each match found and resume
    after it; [skip] counts the characters of the current match that are
    still to be passed over. *)
Fixpoint sub_scan (p : pattern) (repl : list piece) (skip : nat)
    (s : pystr) : pystr :=
  match s with
  | [] =>
    match skip, match_here p [] with
    | O, Some (g, _) => expand repl g
    | _, _ => []
    end
  | c :: s' =>
    match skip with
    | S k => sub_scan p repl k s'
    | O =>
      match match_here p s with
      | Some (g, rest) =>
        match (length s - length rest)%nat with
        | O => expand repl g ++ c :: sub_scan p repl 0 s'
        | S k => expand repl g ++ sub_scan p repl k s'
        end
      | None => c :: sub_scan p repl 0 s'
      end
    end
  end.

Definition sub (p : pattern) (repl : list piece) (s : pystr) : pystr :=
  sub_scan p repl 0 s.

(** Items. *)
Definition chr (c : N) : item := Item (N.eqb c) Once false.
Definition opt (c : N) : item := Item (N.eqb c) Optional false.
Definition many (cls : N -> bool) : item := Item cls OneOrMore false.
Definition many_captured (cls : N -> bool) : item := Item cls OneOrMore true.
Definition literal (s : string) : pattern := map chr (of_ascii s).

(** The pattern begins with an item that must take a character. *)
Definition starts_mandatory (p : pattern) : bool :=
  match p with
  | it :: _ => match quant it with Optional => false | _ => true end
  | [] => false
  end.

Definition non_space (c : N) : bool := negb (isspace c).
Definition other_than (x c : N) : bool := negb (c =? x).

End Re.

Import Re.

(** ** [CuriosityAgent._clean_for_speech] *)

(** The character class of [emoji_pattern]. *)
Definition emoji_class (c : N) : bool :=
  in_range 0x1F300 0x1F9FF c
  || in_range 0x2600 0x26FF c
  || in_range 0x2700 0x27BF c.

Definition emoji_pattern : pattern := [many emoji_class].

(** [https?://\S+] *)
Definition http_url : pattern :=
  literal "http" ++ [opt 115 (* s *)] ++ literal "://" ++ [many non_space].

(** [www\.\S+] *)
Definition www_url : pattern := literal "www." ++ [many non_space].

(** [\[([^\]]+)\]\([^)]+\)] *)
Definition markdown_link : pattern :=
  [chr 91 (* [ *); many_captured (other_than 93 (* ] *)); chr 93; chr 40 (* ( *);
   many (other_than 41 (* ) *)); chr 41].

(** [\s+] *)
Definition whitespace_run : pattern := [many isspace].

Definition _clean_for_speech (text : pystr) : pystr :=
  let text := sub emoji_pattern [] text in
  let text := sub http_url [] text in
  let text := sub www_url [] text in
  let text := sub markdown_link [Group1] text in
  strip (sub whitespace_run [Lit 32] text).

(** ** Session data *)

Inductive role := system | user | assistant.

(** A message dictionary [{"role": ..., "content": ...}]. *)
Record message := Message { msg_role : role; content : pystr }.

(** What a call that may raise gives back; [Raised] carries [str(e)]. *)
Inductive outcome (A : Type) :=
  | Returned (a : A)
  | Raised (diagnostic : pystr).
Arguments Returned {A} a.
Arguments Raised {A} diagnostic.

(** What the microphone and the transcription service give [listen]. *)
Inductive heard :=
  | Recognized (text : pystr)
  | WaitTimeoutError
  | UnknownValueError
  | RequestError (diagnostic : pystr)
  | OtherError (processing : bool) (diagnostic : pystr).

(** Lines the program prints. *)
Inductive output :=
  | ConfigWarning (diagnostic : pystr)
  | Banner
  | Prompt
  | Farewell
  | StartingFresh
  | VoiceMuted
  | VoiceUnmuted
  | Thinking
  | Answer (text : pystr)
  | VoiceUnavailable (diagnostic : pystr)
  | VoiceInputNotAvailable
  | Listening
  | Processing
  | YouSaid (text : pystr)
  | NoSpeechDetected
  | CouldNotUnderstand
  | SpeechServiceError (diagnostic : pystr)
  | ListenError (diagnostic : pystr)
  | KeyNotFound
  | KeyPrompt
  | Bye
  | KeySaved
  | SaveWarning (diagnostic : pystr)
  | ErrorLine
  | ByeInterrupted.

(** What the program does to the outside, in order. *)
Inductive event :=
  | Printed (o : output)
  | CompletionCall (messages : list message)
  | SpeechCall (input : pystr)
  | Playback
  | Transcription
  | ConfigWrite (key : pystr).

Definition is_completion_call (e : event) : bool :=
  match e with CompletionCall _ => true | _ => false end.

Definition is_speech_call (e : event) : bool :=
  match e with SpeechCall _ => true | _ => false end.

Definition is_remote_call (e : event) : bool :=
  match e with
  | CompletionCall _ | SpeechCall _ | Transcription => true
  | _ => false
  end.

(** The collaborators the session consumes.  Each remote service answers
    as a function of everything that happened before the call, so no
    behaviour of a service is excluded. *)
Class Collaborators := {
  (** [str.lower] *)
  lower : pystr -> pystr;
  (** The class constant [CuriosityAgent.SYSTEM_PROMPT]. *)
  SYSTEM_PROMPT : pystr;
  SPEECH_RECOGNITION_AVAILABLE : bool;
  (** [client.chat.completions.create(...)] up to
      [response.choices[0].message.content]. *)
  chat_completions_create : list event -> list message -> outcome pystr;
  (** [client.audio.speech.create(...)] and the write of the audio file. *)
  audio_speech_create : list event -> pystr -> outcome unit;
  (** [recognizer.listen] followed by [recognizer.recognize_google]. *)
  transcribe : list event -> heard;
  (** Whether [open(CONFIG_FILE, 'w')] and [json.dump] go through. *)
  config_write : list event -> outcome unit
}.

(** ** The configuration record *)

(** The value stored under a key of the JSON object. *)
Inductive field_value :=
  | FString (s : pystr)
  | FOther.     (* null, a number, a boolean, a list, an object *)

Inductive config_file :=
  | NoFile                                   (* [CONFIG_FILE.exists()] is false *)
  | Unreadable (diagnostic : pystr)          (* [open] or [json.load] raises *)
  | NotAnObject (diagnostic : pystr)         (* JSON that is no object: no [.get] *)
  | Object (d : gmap pystr field_value).

Definition openai_api_key : pystr := of_ascii "openai_api_key".

(** [str(e)] of the [AttributeError] for [.strip()] on a value that is no
    string; only printed in the warning. *)
Definition no_strip : pystr := of_ascii "object has no attribute 'strip'".

Definition load_api_key_from_config (cfg : config_file) (log : list event)
  : option pystr * list event :=
  match cfg with
  | NoFile => (None, log)
  | Unreadable e | NotAnObject e => (None, log ++ [Printed (ConfigWarning e)])
  | Object d =>
    match default (FString []) (d !! openai_api_key) with
    | FString s =>
      let key := strip s in
      if truthy key then (Some key, log) else (None, log)
    | FOther => (None, log ++ [Printed (ConfigWarning no_strip)])
    end
  end.

(** Truth value of [None] or a string. *)
Definition truthy_opt (v : option pystr) : bool :=
  match v with Some s => truthy s | None => false end.

(** ** [CuriosityAgent] *)

Record CuriosityAgent := Agent {
  api_key : pystr;
  conversation_history : list message;
  muted : bool
}.

(** The agent and the record of what the program did so far. *)
Record world := World { self : CuriosityAgent; trace : list event }.

(** [history.append(turn)] *)
Definition append (history : list message) (turn : message) : list message :=
  history ++ [turn].

Definition print (o : output) (w : world) : world :=
  World (self w) (trace w ++ [Printed o]).

Definition key_required : pystr :=
  of_ascii "OpenAI API key required. Add it to config.json, "
  ++ of_ascii "set OPENAI_API_KEY environment variable, or pass api_key parameter.".
Definition please_ask : pystr := of_ascii "Please ask me something!".
Definition oops : pystr :=
  of_ascii "Oops! Something went wrong. Let's try again! (".

Section Session.

Context `{Collaborators}.

(** [CuriosityAgent.__init__]: the key is
    [api_key or load_api_key_from_config() or os.getenv(...)], where
    [or] evaluates its right operand only when the left one is false.
    The client, the recognizer and the microphone are handles built
    locally; the services behind them are the collaborators.  That
    building them can raise is accounted for in [main_session], where
    the constructor is called. *)
Definition __init__ (explicit : option pystr) (cfg : config_file)
    (env : option pystr) (log : list event)
  : outcome CuriosityAgent * list event :=
  let '(key, log) :=
    if truthy_opt explicit then (explicit, log)
    else
      let '(from_config, log) := load_api_key_from_config cfg log in
      if truthy_opt from_config then (from_config, log) else (env, log) in
  match key with
  | Some (c :: k) =>
    (Returned (Agent (c :: k) [] false), log ++ [Printed Banner])
  | _ => (Raised key_required, log)
  end.

Definition ask (question : pystr) (w : world) : pystr * world :=
  if negb (truthy (strip question)) then (please_ask, w)
  else
    let a := self w in
    let history := append (conversation_history a) (Message user question) in
    let recent_history := slice_from (-6) history in
    let messages := Message system SYSTEM_PROMPT :: recent_history in
    let log' := trace w ++ [CompletionCall messages] in
    match chat_completions_create (trace w) messages with
    | Returned text =>
      let answer := strip text in
      (answer,
       World (Agent (api_key a) (append history (Message assistant answer))
                    (muted a)) log')
    | Raised e =>
      (oops ++ slice_to 50 e ++ of_ascii ")",
       World (Agent (api_key a) history (muted a)) log')
    end.

Definition speak (text : pystr) (w : world) : world :=
  if muted (self w) then w
  else
    let clean_text := _clean_for_speech text in
    if negb (truthy clean_text) then w
    else
      let log' := trace w ++ [SpeechCall clean_text] in
      match audio_speech_create (trace w) clean_text with
      | Returned _ => World (self w) (log' ++ [Playback])
      | Raised e =>
        World (self w) (log' ++ [Printed (VoiceUnavailable (slice_to 30 e))])
      end.

Definition listen (w : world) : pystr * world :=
  if negb SPEECH_RECOGNITION_AVAILABLE then
    ([], print VoiceInputNotAvailable w)
  else
    let w := print Listening w in
    let said (os : list output) :=
      World (self w) (trace w ++ Transcription :: map Printed os) in
    match transcribe (trace w) with
    | Recognized text => (text, said [Processing; YouSaid text])
    | WaitTimeoutError => ([], said [NoSpeechDetected])
    | UnknownValueError => ([], said [Processing; CouldNotUnderstand])
    | RequestError e => ([], said [Processing; SpeechServiceError e])
    | OtherError true e => ([], said [Processing; ListenError e])
    | OtherError false e => ([], said [ListenError e])
    end.

Definition clear_history (w : world) : world :=
  let a := self w in
  print StartingFresh (World (Agent (api_key a) [] (muted a)) (trace w)).

Definition set_muted (b : bool) (w : world) : world :=
  let a := self w in
  World (Agent (api_key a) (conversation_history a) b) (trace w).

(** What [input] does: it returns the line typed, or it raises. *)
Inductive exception := KeyboardInterrupt | EOFError.

Inductive stdin_event :=
  | Line (text : pystr)
  | Raise (e : exception).

Inductive flow := Next | Break.

(** The tail of the loop body: "Get answer" and "Speak the answer". *)
Definition answer_and_speak (user_input : pystr) (w : world) : world :=
  let w := print Thinking w in
  let '(answer, w) := ask user_input w in
  let w := print (Answer answer) w in
  speak answer w.

Definition quit_words : list pystr :=
  [of_ascii "quit"; of_ascii "exit"; of_ascii "bye"; of_ascii "q"].

(** One pass through the body of [while True] for a line read. *)
Definition run_body (line : pystr) (w : world) : flow * world :=
  let user_input := lower (strip line) in
  if bool_decide (user_input ∈ quit_words) then (Break, print Farewell w)
  else if bool_decide (user_input = of_ascii "clear") then
    (Next, clear_history w)
  else if bool_decide (user_input = of_ascii "mute") then
    (Next, print VoiceMuted (set_muted true w))
  else if bool_decide (user_input = of_ascii "unmute") then
    (Next, print VoiceUnmuted (set_muted false w))
  else if bool_decide (user_input = of_ascii "voice") then
    let '(user_input, w) := listen w in
    if negb (truthy user_input) then (Next, w)
    else (Next, answer_and_speak user_input w)
  else if negb (truthy user_input) then (Next, w)
  else (Next, answer_and_speak user_input w).

(** [CuriosityAgent.run]; [input] raises [EOFError] when nothing is left
    to read. *)
Fixpoint run (inputs : list stdin_event) (w : world) : world :=
  match inputs with
  | [] | Raise EOFError :: _ => print Prompt w
  | Raise KeyboardInterrupt :: _ => print Farewell (print Prompt w)
  | Line line :: rest =>
    match run_body line (print Prompt w) with
    | (Break, w) => w
    | (Next, w) => run rest w
    end
  end.

(** How the process ends: with a status, or with an exception that
    nothing catches. *)
Inductive status :=
  | Exit (code : Z)
  | Uncaught (e : exception)
  | Crashed.     (* an exception of another class escapes *)

(** What can cut the [try] statement of [main] short besides the missing
    key.  In [__init__] the client, the recognizer and the microphone are
    built outside any [try] (lines 106-113), before the banner is
    printed.  In the loop, [input] or [print] can raise something that
    [run] does not catch: the events that would have followed are not
    made.  A [ValueError] (which [UnicodeDecodeError] and
    [UnicodeEncodeError] are) is caught by [main] and ends the process
    with status 1; a [KeyboardInterrupt] raised during construction is
    caught by [main] as well; an exception of any other class escapes. *)
Inductive raised := AValueError | AKeyboardInterrupt | AnotherException.

Inductive mishap :=
  | InConstruction (e : raised)
  | InLoop (events_kept : nat) (value_error : bool).

(** The handlers of the [try] statement, and the escape. *)
Definition aborted (e : raised) (log : list event) : status * list event :=
  match e with
  | AValueError => (Exit 1, log ++ [Printed ErrorLine])
  | AKeyboardInterrupt => (Exit 0, log ++ [Printed ByeInterrupted])
  | AnotherException => (Crashed, log)
  end.

(** The [try] statement that ends [main], entered with the key [main]
    has found or was given.  A cut in the loop is allowed after any
    number of its events: every point at which the source can be cut
    short is among them. *)
Definition main_session (api_key : pystr) (cfg : config_file)
    (env : option pystr) (inputs : list stdin_event) (log : list event)
    (m : option mishap) : status * list event :=
  match __init__ (Some api_key) cfg env log with
  | (Raised _, log) => (Exit 1, log ++ [Printed ErrorLine])
  | (Returned agent, log') =>
    match m with
    | Some (InConstruction e) => aborted e (removelast log')
    | Some (InLoop events_kept value_error) =>
      let new := drop (length log') (trace (run inputs (World agent log'))) in
      if decide (events_kept < length new)%nat then
        aborted (if value_error then AValueError else AnotherException)
                (log' ++ take events_kept new)
      else (Exit 0, log' ++ new)
    | None => (Exit 0, trace (run inputs (World agent log')))
    end
  end.

Definition main (cfg : config_file) (env : option pystr)
    (inputs : list stdin_event) (m : option mishap) : status * list event :=
  let '(from_config, log) := load_api_key_from_config cfg [] in
  let found := if truthy_opt from_config then from_config else env in
  match found with
  | Some (c :: k) => main_session (c :: k) cfg env inputs log m
  | _ =>
    let log := log ++ [Printed KeyNotFound; Printed KeyPrompt] in
    match inputs with
    | Line typed :: inputs =>
      let key := strip typed in
      if negb (truthy key) then (Exit 0, log ++ [Printed Bye])
      else
        let log' := log ++ [ConfigWrite key] in
        let log' :=
          match config_write log with
          | Returned _ => log' ++ [Printed KeySaved]
          | Raised e => log' ++ [Printed (SaveWarning e)]
          end in
        main_session key cfg env inputs log' m
    | Raise e :: _ => (Uncaught e, log)
    | [] => (Uncaught EOFError, log)
    end
  end.

End Session.

(** [str.lower] on ASCII text, a prompt and services that answer the same
    thing every time: a concrete set of collaborators to run the model
    on. *)
Definition canned (answer : outcome pystr) (speech : outcome unit)
    (voice : heard) : Collaborators := {|
  lower := ascii_lower;
  SYSTEM_PROMPT := of_ascii "You are a friendly helper for a 5-6 year old child.";
  SPEECH_RECOGNITION_AVAILABLE := true;
  chat_completions_create := fun _ _ => answer;
  audio_speech_create := fun _ _ => speech;
  transcribe := fun _ => voice;
  config_write := fun _ => Returned tt
|}.

(** ** Vocabulary of the statements *)

(** The input of the sanitizer example: "Check ", U+1F600, and the rest. *)
Definition sanitize_example : pystr :=
  of_ascii "Check " ++ [0x1F600] ++ of_ascii " https://x.co [here](http://y.co)".

(** The credential string held by the configuration record, if it holds
    one: the field as it is stored, before [load_api_key_from_config]
    touches it. *)
Definition record_credential (cfg : config_file) : option pystr :=
  match cfg with
  | Object d =>
    match d !! openai_api_key with
    | Some (FString s) => Some s
    | _ => None
    end
  | _ => None
  end.

(** A source that is absent ([None]) or holds the empty string. *)
Definition absent_or_empty (v : option pystr) : Prop :=
  v = None \/ v = Some [].

Definition first_nonempty (vs : list (option pystr)) : option pystr :=
  head (omap (fun v => match v with Some (c :: k) => Some (c :: k) | _ => None end) vs).

Section Vocabulary.

Context `{Collaborators}.

(** The [messages] argument [ask] builds for [question]. *)
Definition request (question : pystr) (w : world) : list message :=
  Message system SYSTEM_PROMPT
  :: slice_from (-6) (append (conversation_history (self w))
                             (Message user question)).

(** The lowered, trimmed line reaches the last branch of the loop body:
    it is no command and it is not empty. *)
Definition is_question (user_input : pystr) : bool :=
  negb (bool_decide (user_input ∈ quit_words))
  && negb (bool_decide (user_input = of_ascii "clear"))
  && negb (bool_decide (user_input = of_ascii "mute"))
  && negb (bool_decide (user_input = of_ascii "unmute"))
  && negb (bool_decide (user_input = of_ascii "voice"))
  && truthy user_input.

End Vocabulary.

(** ** Concrete sessions to run the model on *)

Definition a_key : pystr := of_ascii "sk-test".
Definition fresh : world := World (Agent a_key [] false) [].
Definition boom : pystr :=
  of_ascii "Connection error: the completion service could not be reached in time".

Definition a_question : pystr := of_ascii "why is the sky blue?".
Definition a_line : pystr := of_ascii "  Why is the Sky BLUE?  ".
Definition spoken : pystr := of_ascii "Why Is Snow White".

(** Every service answers. *)
Definition helpful : Collaborators :=
  canned (Returned (of_ascii " Light bounces in the air! "))
         (Returned tt) (Recognized spoken).

(** Every service answers, but the speech-recognition package is not
    installed. *)
Definition deaf : Collaborators := {|
  lower := ascii_lower;
  SYSTEM_PROMPT := of_ascii "You are a friendly helper for a 5-6 year old child.";
  SPEECH_RECOGNITION_AVAILABLE := false;
  chat_completions_create :=
    fun _ _ => Returned (of_ascii " Light bounces in the air! ");
  audio_speech_create := fun _ _ => Returned tt;
  transcribe := fun _ => WaitTimeoutError;
  config_write := fun _ => Returned tt
|}.

(** The completion service is down. *)
Definition failing : Collaborators :=
  canned (Raised boom) (Returned tt) WaitTimeoutError.

Definition seven_turns : list message :=
  [Message user (of_ascii "q1"); Message assistant (of_ascii "a1");
   Message user (of_ascii "q2"); Message assistant (of_ascii "a2");
   Message user (of_ascii "q3"); Message assistant (of_ascii "a3");
   Message user (of_ascii "q4")].

(** A record whose key is stored with blanks around it. *)
Definition padded_key : pystr := of_ascii " sk-test ".
Definition padded_config : config_file :=
  Object {[ openai_api_key := FString padded_key ]}.

(** ** Vocabulary of the further properties *)

(** The text begins with a white-space character. *)
Definition starts_with_space (s : pystr) : bool :=
  match s with c :: _ => isspace c | [] => false end.

(** The text neither begins nor ends with white space. *)
Definition trimmed (s : pystr) : bool :=
  negb (starts_with_space s) && negb (starts_with_space (rev s)).

(** Every white-space character of the text is U+0020 and follows a
    character that is no white space ([after_space] tells whether the text
    comes right after a white-space character). *)
Fixpoint single_spaced (after_space : bool) (s : pystr) : bool :=
  match s with
  | [] => true
  | c :: s' =>
    if isspace c then (c =? 32) && negb after_space && single_spaced true s'
    else single_spaced false s'
  end.

(** The first characters of the text that are in the class, dropped. *)
Fixpoint skip_class (cls : N -> bool) (s : pystr) : pystr :=
  match s with
  | c :: s' => if cls c then skip_class cls s' else s
  | [] => []
  end.

(** Literal characters of a replacement template. *)
Definition literals (repl : list piece) : pystr :=
  flat_map (fun x => match x with Lit c => [c] | Group1 => [] end) repl.

(** In the history every assistant turn comes right after a user turn, and
    no turn has the role of the system ([after_user] tells whether the
    turn before the list is a user turn). *)
Fixpoint answers_follow (after_user : bool) (history : list message) : bool :=
  match history with
  | [] => true
  | turn :: history' =>
    match msg_role turn with
    | user => answers_follow true history'
    | assistant => after_user && answers_follow false history'
    | system => false
    end
  end.

(** What ends the loop when it is read: an exception of [input], or a
    line that is one of the quit words once trimmed and lowered. *)
Definition stops `{Collaborators} (ev : stdin_event) : Prop :=
  match ev with
  | Raise _ => True
  | Line line => lower (strip line) ∈ quit_words
  end.

(** What [speak] leaves in the record after the speech call. *)
Definition aftermath (e : event) : Prop :=
  e = Playback \/ exists diagnostic, e = Printed (VoiceUnavailable diagnostic).

(** In a record of events, each speech call comes right after the print
    of an answer and carries the sanitized form of that answer, which is
    not empty ([answer] is the answer printed just before, if any). *)
Fixpoint speech_after_answer (answer : option pystr) (events : list event)
  : bool :=
  match events with
  | [] => true
  | Printed (Answer a) :: events' => speech_after_answer (Some a) events'
  | SpeechCall input :: events' =>
    match answer with
    | Some a => bool_decide (input = _clean_for_speech a) && truthy input
    | None => false
    end && speech_after_answer None events'
  | _ :: events' => speech_after_answer None events'
  end.

(** The file [json.dump({"openai_api_key": api_key}, f, indent=2)] leaves,
    as [json.load] reads it back. *)
Definition saved_config (key : pystr) : config_file :=
  Object {[ openai_api_key := FString key ]}.

(** The events the loop can add to the record: prints, a completion call
    for a question that is not blank with the prompt and the last turns of
    some history, a speech call for a sanitized text that is not empty,
    the start of a playback, a transcription. *)
Inductive emitted `{Collaborators} : event -> Prop :=
  | emitted_print o : emitted (Printed o)
  | emitted_completion question history :
      truthy (strip question) = true ->
      emitted (CompletionCall
                 (Message system SYSTEM_PROMPT
                  :: slice_from (-6) (append history (Message user question))))
  | emitted_speech text :
      truthy (_clean_for_speech text) = true ->
      emitted (SpeechCall (_clean_for_speech text))
  | emitted_playback : emitted Playback
  | emitted_transcription : emitted Transcription.

(** The record does not begin with a speech call. *)
Definition quiet_head (events : list event) : Prop :=
  match events with SpeechCall _ :: _ => False | _ => True end.

Definition is_transcription (e : event) : bool :=
  match e with Transcription => true | _ => false end.

(** How many events of a kind a record holds. *)
Definition count (kind : event -> bool) (events : list event) : nat :=
  length (filter (fun e => kind e) events).

(** A record the loop can have added: its events are of the kinds above,
    speech follows answers, and it does not begin with a speech call. *)
Definition orderly `{Collaborators} (events : list event) : Prop :=
  Forall emitted events
  /\ speech_after_answer None events = true
  /\ quiet_head events.

(** At most [n] completion calls, [n] speech calls and [n] transcriptions. *)
Definition at_most (n : nat) (events : list event) : Prop :=
  (count is_completion_call events <= n)%nat
  /\ (count is_speech_call events <= n)%nat
  /\ (count is_transcription events <= n)%nat.

(** ** [setup_key.py] *)

Module SetupKey.

(** Lines the script prints. *)
Inductive output :=
  | Header
  | CurrentKey (masked : pystr)
  | Keeping
  | Instructions
  | NoKeyEntered
  | PrefixWarning
  | Saved
  | SaveError (diagnostic : pystr)
  | Complete.

(** What the script does to the outside, in order. *)
Inductive event :=
  | Shown (o : output)
  | Written (key : pystr).     (* [json.dump({"openai_api_key": key}, f)] *)

Definition is_written (e : event) : bool :=
  match e with Written _ => true | Shown _ => false end.

(** [s.strip(chars)] *)
Definition strip_chars (chars s : pystr) : pystr :=
  let among c := bool_decide (c ∈ chars) in
  rev (skip_class among (rev (skip_class among s))).

(** The double and the single quote, the characters the script strips. *)
Definition quotes : pystr := [34; 39].

(** [s.startswith(prefix)] *)
Fixpoint startswith (prefix s : pystr) : bool :=
  match prefix, s with
  | [], _ => true
  | p :: prefix', c :: s' => (p =? c) && startswith prefix' s'
  | _ :: _, [] => false
  end.

(** [existing_key[:7] + "..." + existing_key[-4:]] *)
Definition mask (existing_key : pystr) : pystr :=
  slice_to 7 existing_key ++ of_ascii "..." ++ slice_from (-4) existing_key.

(** The key the script finds in the record: the stored string, stripped;
    [None] when there is no file or when reading it raises, since the bare
    [except] passes. *)
Definition existing (cfg : config_file) : option pystr :=
  match cfg with
  | NoFile | Unreadable _ | NotAnObject _ => None
  | Object d =>
    match default (FString []) (d !! openai_api_key) with
    | FString s => Some (strip s)
    | FOther => None
    end
  end.

Section Script.

(** [str.lower], and whether writing the record goes through. *)
Variable lower : pystr -> pystr.
Variable write : list event -> outcome unit.

(** "Save to config.json" and what follows. *)
Definition save (api_key : pystr) (log : list event) : status * list event :=
  let log' := log ++ [Written api_key] in
  match write log with
  | Returned _ => (Exit 0, log' ++ [Shown Saved; Shown Complete])
  | Raised e => (Exit 0, log' ++ [Shown (SaveError e)])
  end.

(** From the instructions on: the key is read, trimmed, unquoted, checked
    and saved. *)
Definition enter_key (inputs : list stdin_event) (log : list event)
  : status * list event :=
  let log := log ++ [Shown Instructions] in
  match inputs with
  | [] => (Uncaught EOFError, log)
  | Raise e :: _ => (Uncaught e, log)
  | Line typed :: inputs =>
    let api_key := strip typed in
    let api_key := strip_chars quotes api_key in
    if negb (truthy api_key) then (Exit 0, log ++ [Shown NoKeyEntered])
    else if negb (startswith (of_ascii "sk-") api_key) then
      let log := log ++ [Shown PrefixWarning] in
      match inputs with
      | [] => (Uncaught EOFError, log)
      | Raise e :: _ => (Uncaught e, log)
      | Line confirm :: _ =>
        if bool_decide (lower (strip confirm) = of_ascii "y")
        then save api_key log
        else (Exit 0, log)
      end
    else save api_key log
  end.

Definition main (cfg : config_file) (inputs : list stdin_event)
  : status * list event :=
  let log := [Shown Header] in
  match existing cfg with
  | Some (c :: k) =>
    let existing_key := c :: k in
    let log := log ++ [Shown (CurrentKey (mask existing_key))] in
    match inputs with
    | [] => (Uncaught EOFError, log)
    | Raise e :: _ => (Uncaught e, log)
    | Line choice :: inputs =>
      if bool_decide (lower (strip choice) = of_ascii "y")
      then enter_key inputs log
      else (Exit 0, log ++ [Shown Keeping])
    end
  | _ => enter_key inputs log
  end.

End Script.

End SetupKey.

(** ** More concrete sessions *)

(** A session of one question, then two more lines. *)
Definition a_session : list stdin_event :=
  [Line a_line; Line (of_ascii "voice"); Line (of_ascii "bye")].

(** A session that starts muted. *)
Definition hushed : world := World (Agent a_key [] true) [].

(** The transcription recognizes three spaces. *)
Definition mumbling : Collaborators :=
  canned (Returned (of_ascii "Wow!")) (Returned tt)
         (Recognized (of_ascii "   ")).

(** The line ["sk-abc"], typed with its double quotes. *)
Definition quoted_line : pystr := [34] ++ of_ascii "sk-abc" ++ [34].

(** Writing the record always goes through. *)
Definition writes (log : list SetupKey.event) : outcome unit := Returned tt.

(** * Properties *)

(** ** Strings and slices *)

Lemma truthy_true (s : pystr) : truthy s = true <-> s <> [].
Proof. destruct s; simpl; split; congruence. Qed.

Lemma truthy_false (s : pystr) : truthy s = false <-> s = [].
Proof. destruct s; simpl; split; congruence. Qed.

Lemma slice_from_last {A} (n : nat) (l : list A) :
  (0 < n)%nat ->
  slice_from (- Z.of_nat n) l = drop (length l - n) l.
Proof.
  intros Hn. unfold slice_from.
  destruct (Z.ltb_spec (- Z.of_nat n) 0) as [_|Hge]; [|lia].
  f_equal. lia.
Qed.

Lemma slice_from_suffix {A} (start : Z) (l : list A) :
  slice_from start l `suffix_of` l.
Proof. unfold slice_from. apply suffix_drop. Qed.

Lemma slice_from_last_length {A} (n : nat) (l : list A) :
  (0 < n)%nat ->
  length (slice_from (- Z.of_nat n) l) = (n `min` length l)%nat.
Proof. intros Hn. rewrite slice_from_last by done. rewrite length_drop. lia. Qed.

Lemma slice_to_prefix {A} (stop : Z) (l : list A) :
  slice_to stop l `prefix_of` l.
Proof. unfold slice_to. apply prefix_take. Qed.

Lemma slice_to_length {A} (n : nat) (l : list A) :
  (length (slice_to (Z.of_nat n) l) <= n)%nat.
Proof.
  unfold slice_to. destruct (Z.ltb_spec (Z.of_nat n) 0); [lia|].
  rewrite length_take. lia.
Qed.

Lemma slice_to_take {A} (n : nat) (l : list A) :
  slice_to (Z.of_nat n) l = take n l.
Proof.
  unfold slice_to. destruct (Z.ltb_spec (Z.of_nat n) 0); [lia|].
  destruct (decide (n <= length l)%nat).
  - f_equal. lia.
  - rewrite !take_ge by lia. done.
Qed.

Lemma foldl_append (turns history : list message) :
  foldl append history turns = history ++ turns.
Proof.
  revert history. induction turns as [|t turns IH]; intros history; simpl.
  - by rewrite app_nil_r.
  - rewrite IH. unfold append. by rewrite <- app_assoc.
Qed.

(** ** The matcher

    A match takes a prefix of the text, and a pattern that begins with a
    mandatory item never matches the empty string: [sub_scan] then always
    moves on by the length of the match. *)

Lemma and_then_suffix (it : item) (p : pattern) :
  (forall s g rest, match_here p s = Some (g, rest) -> rest `suffix_of` s) ->
  forall (taken s g rest : pystr),
    match match_here p s with
    | Some (g, r) => Some (if group it then taken else g, r)
    | None => None
    end = Some (g, rest) ->
    rest `suffix_of` s.
Proof.
  intros IH taken s g rest Hm.
  destruct (match_here p s) as [[g' r]|] eqn:Hp; [|done].
  inversion Hm; subst. by eapply IH.
Qed.

Lemma greedy_shrinks (cls : N -> bool)
    (and_then : pystr -> pystr -> option (pystr * pystr)) :
  (forall taken s g rest,
      and_then taken s = Some (g, rest) -> rest `suffix_of` s) ->
  forall s taken g rest,
    greedy cls and_then taken s = Some (g, rest) ->
    rest `suffix_of` s /\ (length rest < length s)%nat.
Proof.
  intros Hthen. induction s as [|c s' IH]; intros taken g rest; simpl; [done|].
  destruct (cls c); [|done].
  destruct (greedy cls and_then (taken ++ [c]) s') as [[g' r]|] eqn:Hmore.
  - intros [= <- <-]. destruct (IH _ _ _ Hmore) as [Hsuffix Hlen].
    split; [by apply suffix_cons_r|lia].
  - intros Hm. apply Hthen in Hm. split; [by apply suffix_cons_r|].
    apply suffix_length in Hm. lia.
Qed.

Lemma match_here_suffix (p : pattern) :
  forall s g rest, match_here p s = Some (g, rest) -> rest `suffix_of` s.
Proof.
  induction p as [|it p IH]; intros s g rest; simpl.
  - by intros [= <- <-].
  - destruct (quant it).
    + destruct s as [|c s']; [done|].
      destruct (accepts it c); [|done].
      intros Hm. apply suffix_cons_r. by eapply (and_then_suffix it p IH).
    + destruct s as [|c s'].
      * by apply (and_then_suffix it p IH).
      * destruct (accepts it c); [|by apply (and_then_suffix it p IH)].
        destruct (match_here p s') as [[g' r]|] eqn:Hp.
        -- intros [= <- <-]. apply suffix_cons_r. by eapply IH.
        -- by apply (and_then_suffix it p IH).
    + intros Hm. eapply greedy_shrinks in Hm; [by destruct Hm|].
      intros taken s0 g0 rest0. by apply (and_then_suffix it p IH).
Qed.

Lemma match_here_progress (p : pattern) (s g rest : pystr) :
  starts_mandatory p = true ->
  match_here p s = Some (g, rest) ->
  (length rest < length s)%nat.
Proof.
  destruct p as [|it p]; [done|]. simpl.
  destruct (quant it); [|done|]; intros _.
  - destruct s as [|c s']; [done|].
    destruct (accepts it c); [|done].
    intros Hm.
    apply (and_then_suffix it p (match_here_suffix p)) in Hm.
    apply suffix_length in Hm. simpl. lia.
  - intros Hm. eapply greedy_shrinks in Hm; [by destruct Hm|].
    intros taken s0 g0 rest0.
    by apply (and_then_suffix it p (match_here_suffix p)).
Qed.

Lemma patterns_start_mandatory :
  Forall (fun p => starts_mandatory p = true)
    [emoji_pattern; http_url; www_url; markdown_link; whitespace_run].
Proof. repeat constructor. Qed.

(** ** The answer pipeline *)

Section AnswerPipeline.

Context `{Collaborators}.

Implicit Types (question : pystr) (w : world).

Lemma ask_blank question w :
  truthy (strip question) = false -> ask question w = (please_ask, w).
Proof. intros Hblank. unfold ask. by rewrite Hblank. Qed.

Lemma ask_returned question w text :
  truthy (strip question) = true ->
  chat_completions_create (trace w) (request question w) = Returned text ->
  ask question w =
    (strip text,
     World (Agent (api_key (self w))
              (conversation_history (self w)
               ++ [Message user question; Message assistant (strip text)])
              (muted (self w)))
           (trace w ++ [CompletionCall (request question w)])).
Proof.
  intros Hq Hcall. unfold ask, request in *. rewrite Hq; simpl.
  rewrite Hcall. unfold append. by rewrite <- app_assoc.
Qed.

Lemma ask_raised question w e :
  truthy (strip question) = true ->
  chat_completions_create (trace w) (request question w) = Raised e ->
  ask question w =
    (oops ++ slice_to 50 e ++ of_ascii ")",
     World (Agent (api_key (self w))
              (conversation_history (self w) ++ [Message user question])
              (muted (self w)))
           (trace w ++ [CompletionCall (request question w)])).
Proof.
  intros Hq Hcall. unfold ask, request in *. rewrite Hq; simpl.
  by rewrite Hcall.
Qed.

(** Whatever the service does, a question that is not blank costs one
    completion call, and the history only grows. *)
Lemma ask_asked question w :
  truthy (strip question) = true ->
  trace (ask question w).2 = trace w ++ [CompletionCall (request question w)]
  /\ append (conversation_history (self w)) (Message user question)
       `prefix_of` conversation_history (self (ask question w).2)
  /\ api_key (self (ask question w).2) = api_key (self w)
  /\ muted (self (ask question w).2) = muted (self w).
Proof.
  intros Hq.
  destruct (chat_completions_create (trace w) (request question w))
    as [text|e] eqn:Hcall.
  - rewrite (ask_returned _ _ _ Hq Hcall); simpl. split_and!; try done.
    unfold append. exists [Message assistant (strip text)].
    by rewrite <- app_assoc.
  - rewrite (ask_raised _ _ _ Hq Hcall); simpl. split_and!; done.
Qed.

(** C1. Whatever turns were appended to the history, one after the
    other, all of them are kept, in order; and when [ask] then sends a
    question, the window it submits next to the system prompt is the
    suffix of the history (the question included) of length
    [min 6 len], while the history kept afterwards still starts with
    every turn. *)
Theorem window_is_last_six (turns : list message) question key m log :
  truthy (strip question) = true ->
  let history := foldl append [] turns in
  let w := World (Agent key history m) log in
  let sent := append history (Message user question) in
  history = turns
  /\ (exists window,
        trace (ask question w).2
          = log ++ [CompletionCall (Message system SYSTEM_PROMPT :: window)]
        /\ window `suffix_of` sent
        /\ length window = (6 `min` length sent)%nat)
  /\ sent `prefix_of` conversation_history (self (ask question w).2).
Proof.
  intros Hq history w sent.
  assert (Hh : history = turns) by (unfold history; by rewrite foldl_append).
  destruct (ask_asked question w Hq) as (Htrace & Hprefix & _).
  split_and!; [done| |done].
  exists (slice_from (-6) sent). split_and!.
  - exact Htrace.
  - apply slice_from_suffix.
  - apply (slice_from_last_length 6). lia.
Qed.

(** C2. When the completion call made for a question raises, [ask]
    returns the fixed apology followed, in parentheses, by the first 50
    characters of the diagnostic (the whole of it when it is shorter),
    and what it appended to the history holds no assistant turn. *)
Theorem failed_completion_fallback question w e :
  truthy (strip question) = true ->
  chat_completions_create (trace w) (request question w) = Raised e ->
  (ask question w).1 = oops ++ take 50 e ++ of_ascii ")"
  /\ (length (take 50 e) <= 50)%nat
  /\ (exists appended,
        conversation_history (self (ask question w).2)
          = conversation_history (self w) ++ appended
        /\ Forall (fun turn => msg_role turn <> assistant) appended).
Proof.
  intros Hq Hcall. rewrite (ask_raised _ _ _ Hq Hcall); simpl.
  rewrite (slice_to_take 50). split_and!.
  - done.
  - rewrite length_take. lia.
  - exists [Message user question]. split; [done|].
    repeat constructor. simpl. congruence.
Qed.

(** C3, as the code has it. When the completion call raises, the
    history after [ask] is the history before it followed by the user
    turn of the question: the answer is not recorded, the question is,
    so the history is one turn longer than before. *)
Theorem failed_completion_keeps_question question w e :
  truthy (strip question) = true ->
  chat_completions_create (trace w) (request question w) = Raised e ->
  conversation_history (self (ask question w).2)
    = conversation_history (self w) ++ [Message user question]
  /\ length (conversation_history (self (ask question w).2))
     = S (length (conversation_history (self w))).
Proof.
  intros Hq Hcall. rewrite (ask_raised _ _ _ Hq Hcall); simpl.
  split; [done|]. rewrite length_app. simpl. lia.
Qed.

(** C7. A question that is empty once trimmed changes nothing: [ask]
    returns the fixed message, the history and the rest of the agent are
    as before, and no call was added to the record of events. *)
Theorem blank_question_rejected question w :
  strip question = [] ->
  ask question w = (please_ask, w)
  /\ filter (fun e => is_completion_call e)
       (trace (ask question w).2)
     = filter (fun e => is_completion_call e) (trace w)
  /\ conversation_history (self (ask question w).2)
     = conversation_history (self w).
Proof.
  intros Hblank.
  assert (Hask : ask question w = (please_ask, w)).
  { apply ask_blank. by rewrite Hblank. }
  by rewrite Hask.
Qed.

End AnswerPipeline.

(** ** Speech and the command loop *)

Section CommandLoop.

Context `{Collaborators}.

Implicit Types (line text : pystr) (w : world).

Lemma speak_muted text w : muted (self w) = true -> speak text w = w.
Proof. intros Hm. unfold speak. by rewrite Hm. Qed.

Lemma speak_nothing_to_say text w :
  _clean_for_speech text = [] -> speak text w = w.
Proof.
  intros Hclean. unfold speak. rewrite Hclean. simpl.
  by destruct (muted (self w)).
Qed.

Lemma speak_unmuted text w :
  muted (self w) = false ->
  truthy (_clean_for_speech text) = true ->
  exists ev,
    speak text w
    = World (self w)
        (trace w ++ [SpeechCall (_clean_for_speech text); ev]).
Proof.
  intros Hm Hclean. unfold speak. rewrite Hm, Hclean. simpl.
  destruct (audio_speech_create _ _); eexists; by rewrite <- app_assoc.
Qed.

Lemma run_body_question line w :
  is_question (lower (strip line)) = true ->
  run_body line w = (Next, answer_and_speak (lower (strip line)) w).
Proof.
  unfold is_question, run_body. intros Hq.
  repeat (apply andb_prop in Hq; destruct Hq as [Hq ?]).
  repeat match goal with
         | Hn : negb ?b = true |- _ =>
           apply negb_true_iff in Hn; rewrite Hn
         end.
  match goal with Ht : truthy _ = true |- _ => by rewrite Ht end.
Qed.

Lemma run_body_mute line w :
  lower (strip line) = of_ascii "mute" ->
  run_body line w = (Next, print VoiceMuted (set_muted true w)).
Proof. intros Hu. unfold run_body. by rewrite Hu. Qed.

Lemma run_body_unmute line w :
  lower (strip line) = of_ascii "unmute" ->
  run_body line w = (Next, print VoiceUnmuted (set_muted false w)).
Proof. intros Hu. unfold run_body. by rewrite Hu. Qed.

Lemma run_body_clear line w :
  lower (strip line) = of_ascii "clear" ->
  run_body line w = (Next, clear_history w).
Proof. intros Hu. unfold run_body. by rewrite Hu. Qed.

Lemma run_body_voice line w :
  lower (strip line) = of_ascii "voice" ->
  run_body line w
  = (Next, if truthy (listen w).1
           then answer_and_speak (listen w).1 (listen w).2
           else (listen w).2).
Proof.
  intros Hu. unfold run_body. rewrite Hu.
  replace (bool_decide (of_ascii "voice" ∈ quit_words)) with false
    by (by vm_compute).
  replace (bool_decide (of_ascii "voice" = of_ascii "clear")) with false
    by (by vm_compute).
  replace (bool_decide (of_ascii "voice" = of_ascii "mute")) with false
    by (by vm_compute).
  replace (bool_decide (of_ascii "voice" = of_ascii "unmute")) with false
    by (by vm_compute).
  replace (bool_decide (of_ascii "voice" = of_ascii "voice")) with true
    by (by vm_compute).
  destruct (listen w) as [heard w']. simpl. by destruct (truthy heard).
Qed.

Lemma listen_recognized w text :
  SPEECH_RECOGNITION_AVAILABLE = true ->
  transcribe (trace w ++ [Printed Listening]) = Recognized text ->
  listen w
  = (text,
     World (self w)
       ((trace w ++ [Printed Listening])
        ++ [Transcription; Printed Processing; Printed (YouSaid text)])).
Proof.
  intros Hav Hheard. unfold listen. rewrite Hav. simpl. by rewrite Hheard.
Qed.

Lemma speak_self text w : self (speak text w) = self w.
Proof.
  unfold speak. destruct (muted (self w)); [done|].
  destruct (truthy (_clean_for_speech text)); simpl; [|done].
  by destruct (audio_speech_create _ _).
Qed.

Lemma speak_appends text w :
  exists after, trace (speak text w) = trace w ++ after.
Proof.
  unfold speak. destruct (muted (self w)); [exists []; by rewrite app_nil_r|].
  destruct (truthy (_clean_for_speech text)); simpl;
    [|exists []; by rewrite app_nil_r].
  destruct (audio_speech_create _ _); simpl; eexists;
    by rewrite <- app_assoc.
Qed.

(** What the loop does with a question whose trimmed form is not empty,
    up to the speech path: it prints, calls the completion service once,
    appends the user turn and prints the answer. *)
Lemma asked_then_printed user_input w :
  truthy (strip user_input) = true ->
  let answer := (ask user_input (print Thinking w)).1 in
  let wa := print (Answer answer) (ask user_input (print Thinking w)).2 in
  answer_and_speak user_input w = speak answer wa
  /\ trace wa
     = trace w ++ [Printed Thinking; CompletionCall (request user_input w);
                   Printed (Answer answer)]
  /\ muted (self wa) = muted (self w)
  /\ append (conversation_history (self w)) (Message user user_input)
       `prefix_of` conversation_history (self wa).
Proof.
  intros Hq answer wa.
  destruct (ask_asked user_input (print Thinking w) Hq)
    as (Htrace & Hprefix & _ & Hmuted).
  split_and!.
  - unfold answer_and_speak, wa, answer.
    by destruct (ask user_input (print Thinking w)).
  - unfold wa. simpl. rewrite Htrace. simpl.
    by rewrite <- !app_assoc.
  - exact Hmuted.
  - exact Hprefix.
Qed.

Lemma request_last question w :
  last (request question w) = Some (Message user question).
Proof.
  unfold request, append.
  rewrite (slice_from_last 6) by lia.
  rewrite drop_app_le by (rewrite length_app; simpl; lia).
  rewrite last_cons, last_snoc. done.
Qed.

Lemma prefix_snoc_lookup (h h' : list message) (turn : message) :
  append h turn `prefix_of` h' -> h' !! length h = Some turn.
Proof.
  intros [k ->]. unfold append. rewrite <- app_assoc. simpl.
  by apply list_lookup_middle.
Qed.

(** C8. After [mute], a question still costs its completion call, and
    nothing else reaches a remote service: no speech call is made.
    After [unmute], the same question is answered and the sanitized
    answer, when it is not empty, is sent to the speech service.  And
    whatever the flag, a text that sanitizes to the empty string makes
    [speak] return at once, having called nothing. *)
Theorem mute_stops_speech_only line_mute line_unmute line w :
  lower (strip line_mute) = of_ascii "mute" ->
  lower (strip line_unmute) = of_ascii "unmute" ->
  is_question (lower (strip line)) = true ->
  truthy (strip (lower (strip line))) = true ->
  let question := lower (strip line) in
  let w1 := (run_body line_mute w).2 in
  let w2 := (run_body line w1).2 in
  let w3 := (run_body line_unmute w2).2 in
  let w4 := (run_body line w3).2 in
  (exists answer,
      trace w2
      = trace w1 ++ [Printed Thinking; CompletionCall (request question w1);
                     Printed (Answer answer)])
  /\ (exists answer,
        (truthy (_clean_for_speech answer) = true ->
         exists ev,
           trace w4
           = trace w3 ++ [Printed Thinking;
                          CompletionCall (request question w3);
                          Printed (Answer answer);
                          SpeechCall (_clean_for_speech answer); ev])
        /\ (_clean_for_speech answer = [] ->
            trace w4
            = trace w3 ++ [Printed Thinking;
                           CompletionCall (request question w3);
                           Printed (Answer answer)]))
  /\ (forall text w0, _clean_for_speech text = [] -> speak text w0 = w0).
Proof.
  intros Hmute Hunmute Hq Hasked question w1 w2 w3 w4. split_and!.
  - unfold w2. rewrite (run_body_question _ _ Hq). simpl.
    destruct (asked_then_printed question w1 Hasked)
      as (Hstep & Htrace & Hmuted & _).
    exists (ask question (print Thinking w1)).1.
    fold question. rewrite Hstep, speak_muted; [exact Htrace|].
    rewrite Hmuted. unfold w1. by rewrite (run_body_mute _ _ Hmute).
  - assert (Hm3 : muted (self w3) = false).
    { unfold w3. by rewrite (run_body_unmute _ _ Hunmute). }
    destruct (asked_then_printed question w3 Hasked)
      as (Hstep & Htrace & Hmuted & _).
    exists (ask question (print Thinking w3)).1.
    unfold w4. rewrite (run_body_question _ _ Hq). simpl. fold question.
    rewrite Hstep. split.
    + intros Hclean.
      destruct (speak_unmuted (ask question (print Thinking w3)).1
                  (print (Answer (ask question (print Thinking w3)).1)
                     (ask question (print Thinking w3)).2))
        as [ev Hspeak]; [by rewrite Hmuted|done|].
      exists ev. rewrite Hspeak. simpl in *. rewrite Htrace.
      by rewrite <- app_assoc.
    + intros Hclean. by rewrite (speak_nothing_to_say _ _ Hclean).
  - intros text w0. apply speak_nothing_to_say.
Qed.

(** C9. A typed line that the loop takes for a question is asked in its
    lowered, trimmed form: that form is the content of the user turn
    appended to the history and of the last message sent to the
    completion service.  A text heard through [voice] goes to [ask] as
    the transcription gave it, and is recorded and sent unchanged. *)
Theorem typed_lowered_voice_verbatim line line_voice text w :
  (is_question (lower (strip line)) = true ->
   truthy (strip (lower (strip line))) = true ->
   let question := lower (strip line) in
   let w' := (run_body line w).2 in
   run_body line w = (Next, answer_and_speak question w)
   /\ conversation_history (self w') !! length (conversation_history (self w))
      = Some (Message user question)
   /\ exists messages after,
        trace w' = trace w ++ Printed Thinking :: CompletionCall messages :: after
        /\ last messages = Some (Message user question))
  /\ (lower (strip line_voice) = of_ascii "voice" ->
      SPEECH_RECOGNITION_AVAILABLE = true ->
      transcribe (trace w ++ [Printed Listening]) = Recognized text ->
      truthy (strip text) = true ->
      let w' := (run_body line_voice w).2 in
      run_body line_voice w = (Next, answer_and_speak text (listen w).2)
      /\ conversation_history (self w')
           !! length (conversation_history (self w))
         = Some (Message user text)
      /\ exists messages after,
           trace w'
           = trace w ++ [Printed Listening; Transcription; Printed Processing;
                         Printed (YouSaid text); Printed Thinking]
             ++ CompletionCall messages :: after
           /\ last messages = Some (Message user text)).
Proof.
  split.
  - intros Hq Hasked question w'. unfold w'.
    split; [by apply run_body_question|].
    rewrite (run_body_question _ _ Hq). simpl. fold question.
    destruct (asked_then_printed question w Hasked)
      as (Hstep & Htrace & _ & Hprefix).
    rewrite Hstep. split.
    + rewrite speak_self. by apply prefix_snoc_lookup.
    + destruct (speak_appends (ask question (print Thinking w)).1
                  (print (Answer (ask question (print Thinking w)).1)
                     (ask question (print Thinking w)).2))
        as [after Hspeak].
      exists (request question w),
             (Printed (Answer (ask question (print Thinking w)).1) :: after).
      split; [|apply request_last].
      rewrite Hspeak, Htrace. by rewrite <- app_assoc.
  - intros Hvoice Hav Hheard Htext w'. unfold w'.
    assert (Hspoken : truthy text = true).
    { destruct text; [by vm_compute in Htext|done]. }
    rewrite (run_body_voice _ _ Hvoice), (listen_recognized _ _ Hav Hheard).
    simpl. rewrite Hspoken.
    set (wl := World (self w) _).
    destruct (asked_then_printed text wl Htext)
      as (Hstep & Htrace & _ & Hprefix).
    split; [done|]. rewrite Hstep. split.
    + rewrite speak_self. by apply prefix_snoc_lookup.
    + destruct (speak_appends (ask text (print Thinking wl)).1
                  (print (Answer (ask text (print Thinking wl)).1)
                     (ask text (print Thinking wl)).2))
        as [after Hspeak].
      exists (request text wl),
             (Printed (Answer (ask text (print Thinking wl)).1) :: after).
      split; [|apply request_last].
      rewrite Hspeak, Htrace. unfold wl. simpl. by rewrite <- !app_assoc.
Qed.

(** C10. [mute] and [unmute] set the muted flag and leave the history
    and the key as they were; [clear] empties the history and leaves the
    muted flag and the key as they were.  None of them calls a remote
    service. *)
Theorem commands_touch_one_field line w :
  let user_input := lower (strip line) in
  let w' := (run_body line w).2 in
  (user_input = of_ascii "mute" ->
     self w'
     = Agent (api_key (self w)) (conversation_history (self w)) true
     /\ trace w' = trace w ++ [Printed VoiceMuted])
  /\ (user_input = of_ascii "unmute" ->
       self w'
       = Agent (api_key (self w)) (conversation_history (self w)) false
       /\ trace w' = trace w ++ [Printed VoiceUnmuted])
  /\ (user_input = of_ascii "clear" ->
       self w' = Agent (api_key (self w)) [] (muted (self w))
       /\ trace w' = trace w ++ [Printed StartingFresh]).
Proof.
  intros user_input w'. unfold w'. split_and!; intros Hu.
  - by rewrite (run_body_mute _ _ Hu).
  - by rewrite (run_body_unmute _ _ Hu).
  - by rewrite (run_body_clear _ _ Hu).
Qed.

End CommandLoop.

(** ** Credentials and the end of the process *)

Section Credentials.

Context `{Collaborators}.

Implicit Types (explicit env : option pystr) (cfg : config_file).

(** What the configuration record contributes: its credential string,
    stripped, unless nothing is left of it. *)
Lemma load_api_key_from_config_value cfg log :
  (load_api_key_from_config cfg log).1
  = match record_credential cfg with
    | Some s => if truthy (strip s) then Some (strip s) else None
    | None => None
    end.
Proof.
  destruct cfg as [| | |d]; simpl; try done.
  destruct (d !! openai_api_key) as [[s|]|]; simpl; try done.
  by destruct (truthy (strip s)).
Qed.

(** Reading the record prints at most a warning. *)
Lemma load_api_key_from_config_log cfg log :
  exists warnings,
    (load_api_key_from_config cfg log).2 = log ++ map Printed warnings.
Proof.
  destruct cfg as [|e|e|d]; simpl;
    try (by exists []; rewrite app_nil_r); try (by eexists [_]).
  destruct (d !! openai_api_key) as [[s|]|]; simpl;
    try (by eexists [_]); try (by exists []; rewrite app_nil_r).
  destruct (truthy (strip s)); by exists []; rewrite app_nil_r.
Qed.

Lemma truthy_opt_first explicit :
  truthy_opt explicit = true ->
  exists c k, explicit = Some (c :: k).
Proof. destruct explicit as [[|c k]|]; simpl; try done. by exists c, k. Qed.

Lemma init_outcome explicit cfg env log :
  (__init__ explicit cfg env log).1
  = match first_nonempty
            [explicit; strip <$> record_credential cfg; env] with
    | Some key => Returned (Agent key [] false)
    | None => Raised key_required
    end.
Proof.
  unfold __init__, first_nonempty.
  destruct explicit as [[|c k]|]; simpl; try done;
    pose proof (load_api_key_from_config_value cfg log) as Hvalue;
    destruct (load_api_key_from_config cfg log) as [from_config log'];
    simpl in Hvalue; subst from_config;
    destruct (record_credential cfg) as [s|]; simpl;
    try (destruct (strip s) as [|c' k']; simpl; try done);
    by destruct env as [[|c'' k'']|].
Qed.

Lemma init_log explicit cfg env log :
  exists printed,
    (__init__ explicit cfg env log).2 = log ++ map Printed printed.
Proof.
  unfold __init__.
  destruct (load_api_key_from_config_log cfg log) as [warnings Hlog].
  destruct (load_api_key_from_config cfg log) as [from_config log'].
  simpl in Hlog. subst log'.
  destruct (truthy_opt explicit) eqn:He.
  - destruct (truthy_opt_first _ He) as (c & k & ->). simpl.
    by exists [Banner].
  - destruct (truthy_opt from_config) eqn:Hc.
    + destruct (truthy_opt_first _ Hc) as (c & k & ->). simpl.
      exists (warnings ++ [Banner]).
      by rewrite map_app, app_assoc.
    + destruct env as [[|c k]|]; simpl; try (by exists warnings).
      exists (warnings ++ [Banner]). by rewrite map_app, app_assoc.
Qed.

Lemma no_remote_call_printed (printed : list output) :
  filter (fun e => is_remote_call e) (map Printed printed) = [].
Proof. induction printed as [|o printed IH]; [done|]. simpl. exact IH. Qed.

(** C5, as the code has it. The key of the session is the first of
    three candidates that is a non-empty string: the explicit value, the
    credential of the configuration record stripped of surrounding
    white space, the environment value; with none, construction raises.
    So when the explicit value and the environment are absent or empty
    and the record holds a credential that is not blank, the session is
    built with the stripped form of that credential. *)
Theorem credential_priority explicit cfg env log value :
  ((__init__ explicit cfg env log).1
   = match first_nonempty
             [explicit; strip <$> record_credential cfg; env] with
     | Some key => Returned (Agent key [] false)
     | None => Raised key_required
     end)
  /\ (absent_or_empty explicit ->
      absent_or_empty env ->
      record_credential cfg = Some value ->
      strip value <> [] ->
      (__init__ explicit cfg env log).1
      = Returned (Agent (strip value) [] false)).
Proof.
  split; [apply init_outcome|].
  intros Hexplicit Henv Hrecord Hvalue.
  rewrite init_outcome, Hrecord. unfold first_nonempty.
  destruct (strip value) as [|c k] eqn:Hs; [done|].
  destruct Hexplicit as [-> | ->], Henv as [-> | ->]; simpl;
    by rewrite Hs.
Qed.

Lemma load_prints_no_banner cfg :
  Printed Banner ∉ (load_api_key_from_config cfg []).2.
Proof.
  assert (Hwarning : forall e, Printed Banner ∉ [Printed (ConfigWarning e)]).
  { intros e [[=]|[]%elem_of_nil]%elem_of_cons. }
  destruct cfg as [|e|e|d]; simpl;
    [by intros ?%elem_of_nil|apply Hwarning|apply Hwarning|].
  destruct (d !! openai_api_key) as [[s|]|]; simpl;
    [|apply Hwarning|by intros ?%elem_of_nil].
  destruct (truthy (strip s)); by intros ?%elem_of_nil.
Qed.

Lemma absent_not_loaded cfg log :
  absent_or_empty (record_credential cfg) ->
  (load_api_key_from_config cfg log).1 = None.
Proof.
  intros Hrecord. rewrite load_api_key_from_config_value.
  by destruct Hrecord as [-> | ->].
Qed.

(** C6, as the code has it. When the explicit value, the credential of
    the configuration record and the environment value are each absent or
    empty, construction raises the error for a missing key, having made
    no remote call.  [main] does not get that far: with nothing in the
    record and the environment it asks for a key, and when the line typed
    is empty once trimmed it says goodbye and ends with status 0, having
    built no session and called no service. *)
Theorem no_credential_no_session explicit cfg env log typed rest m :
  absent_or_empty explicit ->
  absent_or_empty (record_credential cfg) ->
  absent_or_empty env ->
  strip typed = [] ->
  ((__init__ explicit cfg env log).1 = Raised key_required
   /\ filter (fun e => is_remote_call e) (__init__ explicit cfg env log).2
      = filter (fun e => is_remote_call e) log)
  /\ (main cfg env (Line typed :: rest) m).1 = Exit 0
  /\ (main cfg env (Line typed :: rest) m).2
     = (load_api_key_from_config cfg []).2
       ++ [Printed KeyNotFound; Printed KeyPrompt; Printed Bye]
  /\ filter (fun e => is_remote_call e) (main cfg env (Line typed :: rest) m).2
     = []
  /\ Printed Banner ∉ (main cfg env (Line typed :: rest) m).2.
Proof.
  intros Hexplicit Hrecord Henv Htyped.
  assert (Hnone : first_nonempty
                    [explicit; strip <$> record_credential cfg; env] = None).
  { destruct Hexplicit as [-> | ->], Hrecord as [-> | ->],
      Henv as [-> | ->]; reflexivity. }
  pose proof (init_outcome explicit cfg env log) as Hout.
  rewrite Hnone in Hout.
  destruct (init_log explicit cfg env log) as [printed Hlog].
  split.
  { split; [done|].
    rewrite Hlog, filter_app, no_remote_call_printed. apply app_nil_r. }
  pose proof (absent_not_loaded cfg [] Hrecord) as Hload.
  destruct (load_api_key_from_config_log cfg []) as [warnings Hwarn].
  assert (Hmain : main cfg env (Line typed :: rest) m
                  = (Exit 0,
                     (load_api_key_from_config cfg []).2
                     ++ [Printed KeyNotFound; Printed KeyPrompt; Printed Bye])).
  { unfold main.
    destruct (load_api_key_from_config cfg []) as [from_config log0].
    simpl in Hload. subst from_config. simpl.
    rewrite Htyped. simpl.
    destruct Henv as [-> | ->]; by rewrite <- app_assoc. }
  rewrite Hmain. simpl. split_and!; [done|done| |].
  - rewrite Hwarn. simpl.
    rewrite filter_app, no_remote_call_printed. done.
  - rewrite elem_of_app. intros [Hin|Hin].
    + by apply load_prints_no_banner in Hin.
    + repeat (apply elem_of_cons in Hin as [[=]|Hin]).
      by apply elem_of_nil in Hin.
Qed.

End Credentials.

(** ** The sanitizer on the example of the specification *)

(** The rules one after the other on the example: the pictograph goes,
    then the first URL goes, and the second URL, which is the target of
    the link, goes with the closing parenthesis that follows it. *)
Example sanitize_example_after_urls :
  sub http_url [] (sub emoji_pattern [] sanitize_example)
  = of_ascii "Check   [here](".
Proof. by vm_compute. Qed.

(** The link rule does rewrite a link whose target is no URL of the two
    shapes removed before it. *)
Example markdown_link_relative :
  _clean_for_speech (of_ascii "Check [here](page.html)") = of_ascii "Check here".
Proof. by vm_compute. Qed.

(** C4. On "Check ", U+1F600, " https://x.co [here](http://y.co)" the
    sanitizer returns "Check [here](" and not "Check here": the URL rule
    has removed "http://y.co)" before the link rule runs, so the link rule
    finds no link to rewrite. *)
Theorem clean_for_speech_example :
  _clean_for_speech sanitize_example = of_ascii "Check [here]("
  /\ _clean_for_speech sanitize_example <> of_ascii "Check here".
Proof. split; [by vm_compute|]. vm_compute. discriminate. Qed.

(** ** The statements on concrete sessions *)

Lemma window_is_last_six_witness :
  truthy (strip a_question) = true
  /\ exists window,
       trace (@ask helpful a_question
                (World (Agent a_key seven_turns false) [])).2
       = [CompletionCall (Message system (@SYSTEM_PROMPT helpful) :: window)]
       /\ length window = 6%nat.
Proof.
  split; [reflexivity|].
  destruct (@window_is_last_six helpful seven_turns a_question a_key false []
              eq_refl) as (_ & (window & Htrace & _ & Hlen) & _).
  exists window. split; [exact Htrace|exact Hlen].
Defined.

Lemma failed_completion_fallback_witness :
  truthy (strip a_question) = true
  /\ @chat_completions_create failing (trace fresh)
       (@request failing a_question fresh) = Raised boom
  /\ (@ask failing a_question fresh).1
     = oops ++ of_ascii "Connection error: the completion service could not"
       ++ of_ascii ")"
  /\ (length (take 50 boom) <= 50)%nat
  /\ (exists appended,
         conversation_history (self (@ask failing a_question fresh).2)
         = conversation_history (self fresh) ++ appended
         /\ Forall (fun turn => msg_role turn <> assistant) appended).
Proof.
  split; [reflexivity|]. split; [reflexivity|].
  exact (@failed_completion_fallback failing a_question fresh boom
           eq_refl eq_refl).
Defined.

(** C3, as stated, fails: with an empty history and a completion service
    that is down, the history after [ask] is not the history before it. *)
Lemma failed_completion_is_not_atomic :
  @chat_completions_create failing (trace fresh)
    (@request failing a_question fresh) = Raised boom
  /\ conversation_history (self (@ask failing a_question fresh).2)
     <> conversation_history (self fresh).
Proof. split; [reflexivity|]. vm_compute. discriminate. Qed.

Lemma failed_completion_keeps_question_witness :
  truthy (strip a_question) = true
  /\ @chat_completions_create failing (trace fresh)
       (@request failing a_question fresh) = Raised boom
  /\ conversation_history (self (@ask failing a_question fresh).2)
     = [Message user a_question].
Proof.
  split; [reflexivity|]. split; [reflexivity|].
  exact (proj1 (@failed_completion_keeps_question failing a_question fresh
                  boom eq_refl eq_refl)).
Defined.

(** C5, as stated, fails: the record holds " sk-test ", nothing is passed
    and the environment is empty; the session is built, with the key
    "sk-test" and not with the value of the record. *)
Lemma config_value_is_not_kept_exactly :
  record_credential padded_config = Some padded_key
  /\ (__init__ None padded_config None []).1
     = Returned (Agent (of_ascii "sk-test") [] false)
  /\ (__init__ None padded_config None []).1
     <> Returned (Agent padded_key [] false).
Proof.
  split; [by vm_compute|]. split; [by vm_compute|].
  vm_compute. discriminate.
Qed.

Lemma credential_priority_witness :
  absent_or_empty None
  /\ absent_or_empty (Some [])
  /\ record_credential padded_config = Some padded_key
  /\ strip padded_key <> []
  /\ (__init__ None padded_config (Some []) []).1
     = Returned (Agent (of_ascii "sk-test") [] false).
Proof.
  assert (Hrecord : record_credential padded_config = Some padded_key)
    by (by vm_compute).
  assert (Hvalue : strip padded_key <> []) by (vm_compute; discriminate).
  split; [by left|]. split; [by right|]. split; [exact Hrecord|].
  split; [exact Hvalue|].
  exact (proj2 (credential_priority None padded_config (Some []) []
                  padded_key)
           (or_introl eq_refl) (or_intror eq_refl) Hrecord Hvalue).
Defined.

(** C6, as stated, fails on the program: with no record, no environment
    value and a blank line typed at the prompt for a key, no source holds
    a credential, and the process ends with status 0, not with an error,
    without attempting construction. *)
Lemma no_credential_ends_with_status_0 :
  absent_or_empty (Some (strip (of_ascii "  ")))
  /\ absent_or_empty (record_credential NoFile)
  /\ absent_or_empty None
  /\ @main helpful NoFile None [Line (of_ascii "  ")] None
     = (Exit 0, [Printed KeyNotFound; Printed KeyPrompt; Printed Bye])
  /\ forall m, (@main helpful NoFile None [Line (of_ascii "  ")] m).1 <> Exit 1.
Proof.
  split; [by right|]. split; [by left|]. split; [by left|].
  split; [reflexivity|]. intros m. discriminate.
Qed.

Lemma no_credential_no_session_witness :
  absent_or_empty (Some [])
  /\ absent_or_empty (record_credential NoFile)
  /\ absent_or_empty None
  /\ strip (of_ascii "  ") = []
  /\ (__init__ (Some []) NoFile None []).1 = Raised key_required
  /\ (@main helpful NoFile None [Line (of_ascii "  "); Line a_line] None).1
     = Exit 0.
Proof.
  split; [by right|]. split; [by left|]. split; [by left|].
  split; [reflexivity|].
  destruct (@no_credential_no_session helpful (Some []) NoFile None []
              (of_ascii "  ") [Line a_line] None
              (or_intror eq_refl) (or_introl eq_refl) (or_introl eq_refl)
              eq_refl) as ((Hraised & _) & Hexit & _).
  split; [exact Hraised|exact Hexit].
Defined.

Lemma blank_question_rejected_witness :
  strip (of_ascii "   ") = []
  /\ @ask helpful (of_ascii "   ") fresh = (please_ask, fresh).
Proof.
  split; [reflexivity|].
  exact (proj1 (@blank_question_rejected helpful (of_ascii "   ") fresh
                  eq_refl)).
Defined.

Lemma mute_stops_speech_only_witness :
  @lower helpful (strip (of_ascii " Mute ")) = of_ascii "mute"
  /\ @lower helpful (strip (of_ascii "UNMUTE")) = of_ascii "unmute"
  /\ @is_question (@lower helpful (strip a_line)) = true
  /\ truthy (strip (@lower helpful (strip a_line))) = true
  /\ (let w1 := (@run_body helpful (of_ascii " Mute ") fresh).2 in
      let w2 := (@run_body helpful a_line w1).2 in
      exists answer,
        trace w2
        = trace w1 ++ [Printed Thinking;
                       CompletionCall (@request helpful a_question w1);
                       Printed (Answer answer)]).
Proof.
  split; [reflexivity|]. split; [reflexivity|]. split; [reflexivity|].
  split; [reflexivity|].
  exact (proj1 (@mute_stops_speech_only helpful (of_ascii " Mute ")
                  (of_ascii "UNMUTE") a_line fresh
                  eq_refl eq_refl eq_refl eq_refl)).
Defined.

Lemma typed_lowered_voice_verbatim_witness :
  @SPEECH_RECOGNITION_AVAILABLE deaf = false
  /\ @is_question (@lower deaf (strip a_line)) = true
  /\ truthy (strip (@lower deaf (strip a_line))) = true
  /\ conversation_history (self (@run_body deaf a_line fresh).2) !! 0%nat
     = Some (Message user a_question)
  /\ @lower helpful (strip (of_ascii "Voice")) = of_ascii "voice"
  /\ @SPEECH_RECOGNITION_AVAILABLE helpful = true
  /\ @transcribe helpful (trace fresh ++ [Printed Listening])
     = Recognized spoken
  /\ truthy (strip spoken) = true
  /\ conversation_history
       (self (@run_body helpful (of_ascii "Voice") fresh).2) !! 0%nat
     = Some (Message user spoken).
Proof.
  split; [reflexivity|]. split; [reflexivity|]. split; [reflexivity|].
  split.
  { exact (proj1 (proj2 (proj1 (@typed_lowered_voice_verbatim deaf a_line
                                  (of_ascii "Voice") spoken fresh)
                           eq_refl eq_refl))). }
  split; [reflexivity|]. split; [reflexivity|]. split; [reflexivity|].
  split; [reflexivity|].
  exact (proj1 (proj2 (proj2 (@typed_lowered_voice_verbatim helpful a_line
                                (of_ascii "Voice") spoken fresh)
                         eq_refl eq_refl eq_refl eq_refl))).
Defined.

Lemma commands_touch_one_field_witness :
  let talked := (@run_body helpful a_line fresh).2 in
  @lower helpful (strip (of_ascii "MUTE ")) = of_ascii "mute"
  /\ @lower helpful (strip (of_ascii "Unmute")) = of_ascii "unmute"
  /\ @lower helpful (strip (of_ascii " clear")) = of_ascii "clear"
  /\ self (@run_body helpful (of_ascii "MUTE ") talked).2
     = Agent a_key (conversation_history (self talked)) true
  /\ self (@run_body helpful (of_ascii "Unmute") talked).2
     = Agent a_key (conversation_history (self talked)) false
  /\ self (@run_body helpful (of_ascii " clear") talked).2
     = Agent a_key [] false.
Proof.
  intros talked.
  split; [reflexivity|]. split; [reflexivity|]. split; [reflexivity|].
  split; [|split].
  - exact (proj1 (proj1 (@commands_touch_one_field helpful (of_ascii "MUTE ")
                           talked) eq_refl)).
  - exact (proj1 (proj1 (proj2 (@commands_touch_one_field helpful
                                  (of_ascii "Unmute") talked)) eq_refl)).
  - exact (proj1 (proj2 (proj2 (@commands_touch_one_field helpful
                                  (of_ascii " clear") talked)) eq_refl)).
Defined.

(** ** Remarks on [run] and [main] *)

(** A whole session: mute, a question, unmute, the question again, quit;
    the line after [quit] is never read. *)
Example session_trace :
  let answer := of_ascii "Light bounces in the air!" in
  let prompt := Message system (@SYSTEM_PROMPT helpful) in
  trace (@run helpful
           [Line (of_ascii " Mute "); Line a_line; Line (of_ascii "UNMUTE");
            Line a_line; Line (of_ascii "quit"); Line a_line] fresh)
  = [Printed Prompt; Printed VoiceMuted;
     Printed Prompt; Printed Thinking;
     CompletionCall [prompt; Message user a_question];
     Printed (Answer answer);
     Printed Prompt; Printed VoiceUnmuted;
     Printed Prompt; Printed Thinking;
     CompletionCall [prompt; Message user a_question;
                     Message assistant answer; Message user a_question];
     Printed (Answer answer); SpeechCall answer; Playback;
     Printed Prompt; Printed Farewell].
Proof. by vm_compute. Qed.


(** * Further properties of the code *)

(** ** [str.strip] *)

Lemma lstrip_suffix (s : pystr) : lstrip s `suffix_of` s.
Proof.
  induction s as [|c s IH]; simpl; [done|].
  destruct (isspace c); [by apply suffix_cons_r|done].
Qed.

Lemma lstrip_starts (s : pystr) : starts_with_space (lstrip s) = false.
Proof.
  induction s as [|c s IH]; simpl; [done|].
  destruct (isspace c) eqn:Hc; [done|]. simpl. by rewrite Hc.
Qed.

Lemma lstrip_id (s : pystr) : starts_with_space s = false -> lstrip s = s.
Proof. destruct s as [|c s]; simpl; [done|]. by intros ->. Qed.

Lemma rstrip_prefix (s : pystr) : rstrip s `prefix_of` s.
Proof.
  unfold rstrip. destruct (lstrip_suffix (rev s)) as [k Hk].
  exists (rev k). apply (f_equal (@rev N)) in Hk.
  by rewrite rev_involutive, rev_app_distr in Hk.
Qed.

Lemma rstrip_ends (s : pystr) : starts_with_space (rev (rstrip s)) = false.
Proof. unfold rstrip. rewrite rev_involutive. apply lstrip_starts. Qed.

Lemma rstrip_starts (s : pystr) :
  starts_with_space s = false -> starts_with_space (rstrip s) = false.
Proof.
  intros Hs. destruct (rstrip_prefix s) as [k Hk].
  destruct (rstrip s) as [|c r]; [done|].
  rewrite Hk in Hs. exact Hs.
Qed.

Lemma strip_trimmed (s : pystr) : trimmed (strip s) = true.
Proof.
  unfold trimmed, strip.
  rewrite rstrip_ends, rstrip_starts; [done|apply lstrip_starts].
Qed.

Lemma trimmed_strip (s : pystr) : trimmed s = true -> strip s = s.
Proof.
  unfold trimmed, strip. intros Ht.
  apply andb_prop in Ht as [Hl Hr].
  apply negb_true_iff in Hl. apply negb_true_iff in Hr.
  rewrite (lstrip_id _ Hl). unfold rstrip.
  rewrite (lstrip_id _ Hr). apply rev_involutive.
Qed.

Lemma strip_idemp (s : pystr) : strip (strip s) = strip s.
Proof. apply trimmed_strip, strip_trimmed. Qed.

Lemma strip_sublist (s : pystr) :
  exists before after, s = before ++ strip s ++ after.
Proof.
  unfold strip.
  destruct (lstrip_suffix s) as [before Hb].
  destruct (rstrip_prefix (lstrip s)) as [after Ha].
  exists before, after. by rewrite <- Ha.
Qed.

Lemma strip_length (s : pystr) : (length (strip s) <= length s)%nat.
Proof.
  destruct (strip_sublist s) as (before & after & Hs).
  rewrite Hs at 2. rewrite !length_app. lia.
Qed.

Lemma strip_elem (s : pystr) (c : N) : c ∈ strip s -> c ∈ s.
Proof.
  destruct (strip_sublist s) as (before & after & Hs).
  intros Hc. rewrite Hs. set_solver.
Qed.

(** ** More on the matcher and on [re.sub] *)

Lemma greedy_inv (cls : N -> bool)
    (and_then : pystr -> pystr -> option (pystr * pystr))
    (Q : pystr -> pystr -> pystr -> pystr -> Prop) :
  (forall taken s g rest, and_then taken s = Some (g, rest) -> Q taken s g rest) ->
  forall s taken g rest,
    greedy cls and_then taken s = Some (g, rest) ->
    exists more s1,
      s = more ++ s1 /\ more <> []
      /\ Forall (fun c => cls c = true) more
      /\ Q (taken ++ more) s1 g rest.
Proof.
  intros Hthen. induction s as [|c s' IH]; intros taken g rest; simpl; [done|].
  destruct (cls c) eqn:Hc; [|done].
  destruct (greedy cls and_then (taken ++ [c]) s') as [[g' r]|] eqn:Hmore.
  - intros [= <- <-].
    destruct (IH _ _ _ Hmore) as (more & s1 & -> & _ & Hall & HQ).
    exists (c :: more), s1. split_and!; [done|done|by constructor|].
    by rewrite <- app_assoc in HQ.
  - intros Hm. exists [c], s'. split_and!; [done|done|by repeat constructor|].
    by apply Hthen.
Qed.

(** The text a match consumes holds the text of the group. *)
Lemma match_here_parts (p : pattern) :
  forall s g rest,
    match_here p s = Some (g, rest) ->
    exists a b, s = a ++ g ++ b ++ rest.
Proof.
  induction p as [|it p IH]; intros s g rest; simpl.
  - intros [= <- <-]. by exists [], [].
  - assert (Hthen : forall taken s0 g0 rest0,
               match match_here p s0 with
               | Some (g, r) => Some (if group it then taken else g, r)
               | None => None
               end = Some (g0, rest0) ->
               exists a b, taken ++ s0 = a ++ g0 ++ b ++ rest0).
    { intros taken s0 g0 rest0 Hm.
      destruct (match_here p s0) as [[g' r]|] eqn:Hp; [|done].
      destruct (IH _ _ _ Hp) as (a & b & ->).
      inversion Hm; subst. destruct (group it).
      - exists [], (a ++ g' ++ b). simpl. by rewrite <- !app_assoc.
      - exists (taken ++ a), b. by rewrite <- !app_assoc. }
    destruct (quant it).
    + destruct s as [|c s']; [done|].
      destruct (accepts it c); [|done].
      intros Hm. by apply (Hthen [c]) in Hm.
    + destruct s as [|c s'].
      * intros Hm. by apply (Hthen []) in Hm.
      * destruct (accepts it c); [|intros Hm; by apply (Hthen []) in Hm].
        destruct (match_here p s') as [[g' r]|] eqn:Hp.
        -- intros Hm. apply (Hthen [c] s'). by rewrite Hp.
        -- intros Hm. by apply (Hthen []) in Hm.
    + intros Hm.
      eapply (greedy_inv _ _
                (fun taken s0 g0 rest0 =>
                   exists a b, taken ++ s0 = a ++ g0 ++ b ++ rest0)) in Hm;
        [|exact Hthen].
      by destruct Hm as (more & s1 & -> & _ & _ & Hparts).
Qed.

Lemma match_here_group_length (p : pattern) (s g rest : pystr) :
  match_here p s = Some (g, rest) ->
  (length g + length rest <= length s)%nat.
Proof.
  intros Hm. destruct (match_here_parts _ _ _ _ Hm) as (a & b & ->).
  rewrite !length_app. lia.
Qed.

Lemma match_here_group_elem (p : pattern) (s g rest : pystr) (c : N) :
  match_here p s = Some (g, rest) -> c ∈ g -> c ∈ s.
Proof.
  intros Hm Hc. destruct (match_here_parts _ _ _ _ Hm) as (a & b & ->).
  set_solver.
Qed.

(** A single class under [+] takes the longest run there is. *)
Lemma greedy_longest (cls : N -> bool)
    (and_then : pystr -> pystr -> option (pystr * pystr)) :
  (forall taken rest, and_then taken rest = Some ([], rest)) ->
  forall s taken,
    greedy cls and_then taken s
    = match s with
      | c :: s' => if cls c then Some ([], skip_class cls s') else None
      | [] => None
      end.
Proof.
  intros Hthen. induction s as [|c s' IH]; intros taken; simpl; [done|].
  destruct (cls c); [|done]. rewrite IH.
  destruct s' as [|c' s'']; simpl; [by rewrite Hthen|].
  destruct (cls c'); [done|by rewrite Hthen].
Qed.

Lemma many_match (cls : N -> bool) (s : pystr) :
  match_here [many cls] s
  = match s with
    | c :: s' => if cls c then Some ([], skip_class cls s') else None
    | [] => None
    end.
Proof. simpl. by apply greedy_longest. Qed.

Lemma skip_class_starts (cls : N -> bool) (s : pystr) :
  match skip_class cls s with c :: _ => cls c = false | [] => True end.
Proof.
  induction s as [|c s IH]; simpl; [done|].
  destruct (cls c) eqn:Hc; [done|]. simpl. exact Hc.
Qed.

Lemma sub_scan_skip (p : pattern) (repl : list piece) (s : pystr) :
  forall k, (k <= length s)%nat ->
    sub_scan p repl k s = sub_scan p repl 0 (drop k s).
Proof.
  induction s as [|c s IH]; intros [|k] Hk; simpl in *; try done; try lia.
  apply IH. lia.
Qed.

Lemma sub_nil (p : pattern) (repl : list piece) :
  starts_mandatory p = true -> sub p repl [] = [].
Proof.
  intros Hp. unfold sub. simpl.
  destruct (match_here p []) as [[g rest]|] eqn:Hm; [|done].
  apply (match_here_progress _ _ _ _ Hp) in Hm. simpl in Hm. lia.
Qed.

Lemma sub_cons (p : pattern) (repl : list piece) (c : N) (s : pystr) :
  starts_mandatory p = true ->
  sub p repl (c :: s)
  = match match_here p (c :: s) with
    | Some (g, rest) => expand repl g ++ sub p repl rest
    | None => c :: sub p repl s
    end.
Proof.
  intros Hp. unfold sub. simpl.
  destruct (match_here p (c :: s)) as [[g rest]|] eqn:Hm; [|done].
  pose proof (match_here_progress _ _ _ _ Hp Hm) as Hlt.
  destruct (match_here_suffix _ _ _ _ Hm) as [pre Hpre].
  simpl in Hlt.
  destruct (length s - length rest)%nat as [|k] eqn:Hk.
  - assert (length rest = length s) by lia.
    replace (S (length s) - length rest)%nat with 1%nat by lia.
    rewrite sub_scan_skip by lia. simpl. do 2 f_equal.
    destruct pre as [|c' [|c'' pre]]; simpl in Hpre.
    + apply (f_equal length) in Hpre. simpl in Hpre. lia.
    + by inversion Hpre.
    + apply (f_equal length) in Hpre. simpl in Hpre.
      rewrite length_app in Hpre. lia.
  - replace (S (length s) - length rest)%nat with (S (S k)) by lia.
    rewrite sub_scan_skip by lia. do 2 f_equal.
    assert (Hlen : length pre = S (S k)).
    { apply (f_equal length) in Hpre. simpl in Hpre.
      rewrite length_app in Hpre. lia. }
    destruct pre as [|c' pre]; [done|]. simpl in Hpre, Hlen.
    inversion Hpre; subst. rewrite drop_app_length'; [done|lia].
Qed.

(** Induction along the scan of [re.sub], for a pattern that cannot match
    the empty string. *)
Lemma sub_ind (p : pattern) (repl : list piece)
    (P : pystr -> pystr -> Prop) :
  starts_mandatory p = true ->
  P [] [] ->
  (forall c s out,
      match_here p (c :: s) = None -> P s out -> P (c :: s) (c :: out)) ->
  (forall s g rest out,
      match_here p s = Some (g, rest) ->
      (length rest < length s)%nat ->
      P rest out -> P s (expand repl g ++ out)) ->
  forall s, P s (sub p repl s).
Proof.
  intros Hp Hnil Hkeep Hrepl s.
  remember (length s) as n eqn:Hn. revert s Hn.
  induction n as [n IH] using lt_wf_ind. intros s ->.
  destruct s as [|c s].
  - by rewrite sub_nil.
  - rewrite sub_cons by done.
    destruct (match_here p (c :: s)) as [[g rest]|] eqn:Hm.
    + pose proof (match_here_progress _ _ _ _ Hp Hm) as Hlt.
      apply (Hrepl _ _ rest); [done|done|]. by eapply IH.
    + apply Hkeep; [done|]. eapply IH; [|done]. simpl. lia.
Qed.

(** ** What the sanitizer guarantees *)

Lemma expand_elem (repl : list piece) (g : pystr) (c : N) :
  c ∈ expand repl g -> c ∈ literals repl \/ c ∈ g.
Proof.
  unfold expand, literals.
  induction repl as [|x repl IH]; simpl; [by intros ?%elem_of_nil|].
  rewrite !elem_of_app. intros [Hc|Hc].
  - destruct x; [by left; left|by right].
  - destruct (IH Hc); [left; by right|by right].
Qed.

Lemma sub_elem (p : pattern) (repl : list piece) (s : pystr) (c : N) :
  starts_mandatory p = true ->
  c ∈ sub p repl s -> c ∈ s \/ c ∈ literals repl.
Proof.
  intros Hp. revert c.
  apply (sub_ind p repl
           (fun s out => forall c, c ∈ out -> c ∈ s \/ c ∈ literals repl) Hp).
  - by intros c ?%elem_of_nil.
  - intros c0 s0 out _ IH c [->|Hc]%elem_of_cons; [left; by left|].
    destruct (IH _ Hc); [left; by right|by right].
  - intros s0 g rest out Hm _ IH c [Hc|Hc]%elem_of_app.
    + destruct (expand_elem _ _ _ Hc) as [Hl|Hg]; [by right|].
      left. by eapply match_here_group_elem.
    + destruct (IH _ Hc) as [Hr|Hl]; [|by right].
      left. destruct (match_here_suffix _ _ _ _ Hm) as [pre ->].
      apply elem_of_app. by right.
Qed.

Lemma sub_length (p : pattern) (repl : list piece) (s : pystr) :
  starts_mandatory p = true ->
  (forall s g rest,
      match_here p s = Some (g, rest) ->
      (length (expand repl g) + length rest <= length s)%nat) ->
  (length (sub p repl s) <= length s)%nat.
Proof.
  intros Hp Hshort.
  apply (sub_ind p repl (fun s out => (length out <= length s)%nat) Hp).
  - done.
  - intros c s0 out _ IH. simpl. lia.
  - intros s0 g rest out Hm _ IH. rewrite length_app.
    specialize (Hshort _ _ _ Hm). lia.
Qed.

Lemma sub_removal_length (p : pattern) (s : pystr) :
  starts_mandatory p = true -> (length (sub p [] s) <= length s)%nat.
Proof.
  intros Hp. apply sub_length; [done|]. intros s0 g rest Hm. simpl.
  apply suffix_length. by eapply match_here_suffix.
Qed.

Lemma sub_pictographs (s : pystr) (c : N) :
  c ∈ sub emoji_pattern [] s -> emoji_class c = false.
Proof.
  revert c.
  apply (sub_ind emoji_pattern []
           (fun _ out => forall c, c ∈ out -> emoji_class c = false)
           eq_refl).
  - by intros c ?%elem_of_nil.
  - intros c0 s0 out Hm IH c [->|Hc]%elem_of_cons; [|by apply IH].
    unfold emoji_pattern in Hm. rewrite many_match in Hm.
    by destruct (emoji_class c0).
  - intros s0 g rest out _ _ IH c Hc. by apply IH.
Qed.

Lemma single_spaced_weaken (s : pystr) :
  single_spaced true s = true -> single_spaced false s = true.
Proof.
  destruct s as [|c s]; simpl; [done|].
  destruct (isspace c); [|done]. by rewrite andb_false_r.
Qed.

Lemma single_spaced_after (s : pystr) :
  single_spaced false s = true -> starts_with_space s = false ->
  single_spaced true s = true.
Proof.
  destruct s as [|c s]; simpl; [done|]. intros Hs Hc. by rewrite Hc in *.
Qed.

Lemma single_spaced_suffix (k s : pystr) (b : bool) :
  single_spaced b (k ++ s) = true -> single_spaced false s = true.
Proof.
  revert b. induction k as [|c k IH]; intros b; simpl.
  - destruct b; [apply single_spaced_weaken|done].
  - destruct (isspace c); [|by apply IH].
    intros H. apply andb_prop in H as [_ H]. by apply IH in H.
Qed.

Lemma single_spaced_prefix (s k : pystr) (b : bool) :
  single_spaced b (s ++ k) = true -> single_spaced b s = true.
Proof.
  revert b. induction s as [|c s IH]; intros b; simpl; [done|].
  destruct (isspace c); [|by apply IH].
  intros H. apply andb_prop in H as [H1 H2].
  rewrite H1. simpl. by apply IH in H2.
Qed.

Lemma single_spaced_strip (s : pystr) :
  single_spaced false s = true -> single_spaced false (strip s) = true.
Proof.
  intros Hs. destruct (strip_sublist s) as (before & after & Hparts).
  rewrite Hparts in Hs. apply single_spaced_suffix in Hs.
  by apply single_spaced_prefix in Hs.
Qed.

Lemma sub_whitespace_single_spaced (s : pystr) :
  single_spaced false (sub whitespace_run [Lit 32] s) = true.
Proof.
  cut (single_spaced false (sub whitespace_run [Lit 32] s) = true
       /\ (starts_with_space s = false ->
           starts_with_space (sub whitespace_run [Lit 32] s) = false));
    [by intros [? _]|].
  apply (sub_ind whitespace_run [Lit 32]
           (fun s out =>
              single_spaced false out = true
              /\ (starts_with_space s = false ->
                  starts_with_space out = false)) eq_refl).
  - done.
  - intros c s0 out Hm [IH _].
    unfold whitespace_run in Hm. rewrite many_match in Hm.
    destruct (isspace c) eqn:Hc; [done|]. simpl. by rewrite Hc.
  - intros s0 g rest out Hm _ [IH Hstart].
    unfold whitespace_run in Hm. rewrite many_match in Hm.
    destruct s0 as [|c s1]; [done|].
    destruct (isspace c) eqn:Hc; [|done].
    inversion Hm; subst. simpl. split; [|by rewrite Hc].
    apply single_spaced_after; [done|]. apply Hstart.
    pose proof (skip_class_starts isspace s1) as Hskip.
    by destruct (skip_class isspace s1).
Qed.

Lemma single_spaced_only_spaces (s : pystr) (b : bool) (c : N) :
  single_spaced b s = true -> c ∈ s -> isspace c = true -> c = 32.
Proof.
  revert b. induction s as [|x s IH]; intros b; simpl;
    [by intros _ ?%elem_of_nil|].
  intros Hs [->|Hc]%elem_of_cons Hspace.
  - rewrite Hspace in Hs. apply andb_prop in Hs as [Hs _].
    apply andb_prop in Hs as [Hs _]. by apply N.eqb_eq in Hs.
  - destruct (isspace x); [|by eapply IH].
    apply andb_prop in Hs as [_ Hs]. by eapply IH.
Qed.

Lemma single_spaced_no_run (s : pystr) (b : bool) (pre post : pystr) (c d : N) :
  single_spaced b s = true -> s = pre ++ c :: d :: post ->
  isspace c = true -> isspace d = false.
Proof.
  intros Hs -> Hc. apply single_spaced_suffix in Hs. simpl in Hs.
  rewrite Hc in Hs. apply andb_prop in Hs as [_ Hs].
  destruct (isspace d); [|done]. by rewrite andb_false_r in Hs.
Qed.

(** X1. The text handed to speech has its white space normalized: every
    white-space character left is the plain space U+0020, no two of them
    are adjacent, and the text neither begins nor ends with one. *)
Theorem clean_whitespace_normal (text : pystr) :
  let out := _clean_for_speech text in
  (forall c, c ∈ out -> isspace c = true -> c = 32)
  /\ (forall pre c d post,
        out = pre ++ c :: d :: post -> isspace c = true -> isspace d = false)
  /\ trimmed out = true.
Proof.
  intros out.
  assert (Hs : single_spaced false out = true).
  { unfold out, _clean_for_speech.
    apply single_spaced_strip, sub_whitespace_single_spaced. }
  split_and!.
  - intros c. by apply single_spaced_only_spaces with (b := false).
  - intros pre c d post. by apply single_spaced_no_run with (b := false).
  - unfold out, _clean_for_speech. apply strip_trimmed.
Qed.

(** X2. No character of the three pictograph ranges survives the
    sanitizer, wherever it stood in the text. *)
Theorem clean_no_pictograph (text : pystr) (c : N) :
  c ∈ _clean_for_speech text -> emoji_class c = false.
Proof.
  unfold _clean_for_speech. intros Hc.
  apply strip_elem in Hc.
  apply sub_elem in Hc as [Hc|Hc]; [|by apply list_elem_of_singleton in Hc as ->|done].
  apply sub_elem in Hc as [Hc|Hc]; [|by apply elem_of_nil in Hc|done].
  apply sub_elem in Hc as [Hc|Hc]; [|by apply elem_of_nil in Hc|done].
  apply sub_elem in Hc as [Hc|Hc]; [|by apply elem_of_nil in Hc|done].
  by apply sub_pictographs in Hc.
Qed.

(** X3. The sanitizer never makes a text longer: each rule removes text,
    keeps a part of what it matched, or puts one space for a run of white
    space. *)
Theorem clean_never_longer (text : pystr) :
  (length (_clean_for_speech text) <= length text)%nat.
Proof.
  unfold _clean_for_speech.
  etransitivity; [apply strip_length|].
  etransitivity.
  { apply sub_length; [done|]. intros s g rest Hm. simpl.
    pose proof (match_here_progress whitespace_run _ _ _ eq_refl Hm). lia. }
  etransitivity.
  { apply sub_length; [done|]. intros s g rest Hm. simpl.
    rewrite app_nil_r. by eapply match_here_group_length. }
  etransitivity; [by apply sub_removal_length|].
  etransitivity; [by apply sub_removal_length|].
  by apply sub_removal_length.
Qed.

(** ** The loop, step by step *)

Section LoopFacts.

Context `{Collaborators}.

Implicit Types (line text : pystr) (w : world).

(** The branches of the loop body. *)
Lemma run_body_cases line w :
  let user_input := lower (strip line) in
  (user_input ∈ quit_words /\ run_body line w = (Break, print Farewell w))
  \/ (user_input = of_ascii "clear"
      /\ run_body line w = (Next, clear_history w))
  \/ (user_input = of_ascii "mute"
      /\ run_body line w = (Next, print VoiceMuted (set_muted true w)))
  \/ (user_input = of_ascii "unmute"
      /\ run_body line w = (Next, print VoiceUnmuted (set_muted false w)))
  \/ (user_input = of_ascii "voice"
      /\ run_body line w
         = (Next, if truthy (listen w).1
                  then answer_and_speak (listen w).1 (listen w).2
                  else (listen w).2))
  \/ (user_input = [] /\ run_body line w = (Next, w))
  \/ (is_question user_input = true
      /\ run_body line w = (Next, answer_and_speak user_input w)).
Proof.
  intros user_input.
  destruct (decide (user_input ∈ quit_words)) as [Hquit|Hquit].
  { left. split; [done|]. unfold run_body. fold user_input.
    by rewrite bool_decide_eq_true_2. }
  right. destruct (decide (user_input = of_ascii "clear")) as [Hc|Hc].
  { left. split; [done|]. by apply run_body_clear. }
  right. destruct (decide (user_input = of_ascii "mute")) as [Hm|Hm].
  { left. split; [done|]. by apply run_body_mute. }
  right. destruct (decide (user_input = of_ascii "unmute")) as [Hu|Hu].
  { left. split; [done|]. by apply run_body_unmute. }
  right. destruct (decide (user_input = of_ascii "voice")) as [Hv|Hv].
  { left. split; [done|]. by apply run_body_voice. }
  right. destruct (truthy user_input) eqn:Ht.
  - right. assert (Hq : is_question user_input = true).
    { unfold is_question. rewrite Ht.
      by rewrite !bool_decide_eq_false_2. }
    split; [done|]. by apply run_body_question.
  - left. apply truthy_false in Ht. split; [done|].
    unfold run_body. fold user_input.
    rewrite !bool_decide_eq_false_2 by done. by rewrite Ht.
Qed.

(** [speak] either does nothing or makes one speech call, for a text
    that is not empty, and records what became of it. *)
Lemma speak_spec text w :
  self (speak text w) = self w
  /\ (speak text w = w
      \/ (muted (self w) = false
          /\ truthy (_clean_for_speech text) = true
          /\ exists ev,
               aftermath ev
               /\ trace (speak text w)
                  = trace w ++ [SpeechCall (_clean_for_speech text); ev])).
Proof.
  split; [apply speak_self|]. unfold speak.
  destruct (muted (self w)); [by left|].
  destruct (truthy (_clean_for_speech text)); simpl; [|by left].
  right. split_and!; try done.
  destruct (audio_speech_create _ _); simpl; eexists;
    (split; [|by rewrite <- app_assoc]).
  - by left.
  - right. by eexists.
Qed.

(** [ask] either rejects a blank question or makes one completion call
    and appends the question, with or without an answer. *)
Lemma ask_spec question w :
  api_key (self (ask question w).2) = api_key (self w)
  /\ muted (self (ask question w).2) = muted (self w)
  /\ ((truthy (strip question) = false /\ ask question w = (please_ask, w))
      \/ (truthy (strip question) = true
          /\ trace (ask question w).2
             = trace w ++ [CompletionCall (request question w)]
          /\ (conversation_history (self (ask question w).2)
              = conversation_history (self w) ++ [Message user question]
              \/ conversation_history (self (ask question w).2)
                 = conversation_history (self w)
                   ++ [Message user question;
                       Message assistant (ask question w).1]))).
Proof.
  destruct (truthy (strip question)) eqn:Hq.
  - destruct (chat_completions_create (trace w) (request question w))
      as [text|e] eqn:Hcall.
    + rewrite (ask_returned _ _ _ Hq Hcall). simpl.
      split_and!; try done. right. split_and!; try done. by right.
    + rewrite (ask_raised _ _ _ Hq Hcall). simpl.
      split_and!; try done. right. split_and!; try done. by left.
  - rewrite (ask_blank _ _ Hq). simpl. split_and!; try done. by left.
Qed.

(** [listen] leaves the agent alone, calls the transcription at most once
    and no other service, and returns a text only when one was
    recognized. *)
Lemma listen_spec w :
  self (listen w).2 = self w
  /\ (exists first printed,
        trace (listen w).2
        = trace w ++ Printed first
            :: (if SPEECH_RECOGNITION_AVAILABLE then [Transcription] else [])
            ++ map Printed printed)
  /\ ((listen w).1 <> [] ->
      SPEECH_RECOGNITION_AVAILABLE = true
      /\ transcribe (trace w ++ [Printed Listening])
         = Recognized (listen w).1).
Proof.
  unfold listen. destruct SPEECH_RECOGNITION_AVAILABLE; simpl.
  - destruct (transcribe (trace w ++ [Printed Listening])) as [t| | |e|[] e]
      eqn:Hheard; simpl; (split_and!; [done| |try done]);
      exists Listening;
      [exists [Processing; YouSaid t] | exists [NoSpeechDetected]
       | exists [Processing; CouldNotUnderstand]
       | exists [Processing; SpeechServiceError e]
       | exists [Processing; ListenError e] | exists [ListenError e]];
      by rewrite <- app_assoc.
  - split_and!; try done. by exists VoiceInputNotAvailable, [].
Qed.

End LoopFacts.

(** ** Records of events *)

Lemma count_app (kind : event -> bool) (l k : list event) :
  count kind (l ++ k) = (count kind l + count kind k)%nat.
Proof. unfold count. by rewrite filter_app, length_app. Qed.

Lemma count_printed (kind : event -> bool) (printed : list output) :
  (forall o, kind (Printed o) = false) ->
  count kind (map Printed printed) = 0%nat.
Proof.
  intros Hkind. unfold count.
  induction printed as [|o printed IH]; [done|]. simpl.
  rewrite filter_cons. destruct (decide (kind (Printed o))) as [Hk|]; [|done].
  by rewrite Hkind in Hk.
Qed.

Lemma speech_after_answer_app (answer : option pystr) (l k : list event) :
  speech_after_answer answer l = true ->
  speech_after_answer None k = true ->
  quiet_head k ->
  speech_after_answer answer (l ++ k) = true.
Proof.
  revert answer. induction l as [|e l IH]; intros answer Hl Hk Hq; simpl.
  - destruct k as [|[[]| | | | |] k]; simpl in *; done.
  - destruct e as [[]| | | | |]; simpl in *; try (by apply IH).
    apply andb_prop in Hl as [Hl1 Hl2]. rewrite Hl1. simpl. by apply IH.
Qed.

Lemma speech_after_answer_printed (answer : option pystr)
    (printed : list output) :
  speech_after_answer answer (map Printed printed) = true.
Proof.
  revert answer. induction printed as [|o printed IH]; intros answer; [done|].
  simpl. by destruct o.
Qed.

(** What the check says in plain terms. *)
Lemma speech_after_answer_spec (events : list event) :
  forall answer before input after,
    speech_after_answer answer events = true ->
    events = before ++ SpeechCall input :: after ->
    input <> []
    /\ exists a,
         input = _clean_for_speech a
         /\ (before = [] /\ answer = Some a
             \/ exists before', before = before' ++ [Printed (Answer a)]).
Proof.
  induction events as [|e events IH]; intros answer before input after Hok Heq.
  - by destruct before.
  - destruct before as [|e' before]; simpl in Heq; inversion Heq; subst.
    + simpl in Hok. destruct answer as [a|]; [|done].
      apply andb_prop in Hok as [Hok _]. apply andb_prop in Hok as [Ha Ht].
      apply bool_decide_eq_true in Ha. apply truthy_true in Ht.
      split; [done|]. exists a. split; [done|]. by left.
    + assert (Hnext : exists answer',
                 speech_after_answer answer'
                   (before ++ SpeechCall input :: after) = true
                 /\ forall a, answer' = Some a -> e' = Printed (Answer a)).
      { destruct e' as [[]| | | | |]; simpl in Hok;
          try (exists None; split; [done|done]).
        - eexists. split; [done|]. by intros a [= ->].
        - apply andb_prop in Hok as [_ Hok]. exists None. by split. }
      destruct Hnext as (answer' & Hok' & Hhead).
      destruct (IH _ _ _ _ Hok' eq_refl) as [Hne (a & -> & Hcases)].
      split; [done|]. exists a. split; [done|]. right.
      destruct Hcases as [[-> ->]|(before' & ->)].
      * exists []. simpl. by rewrite (Hhead a eq_refl).
      * by exists (e' :: before').
Qed.

(** ** What each step adds to the record *)

Section LoopSteps.

Context `{Collaborators}.

Implicit Types (line text : pystr) (w : world).

Lemma orderly_nil : orderly [].
Proof. by split_and!. Qed.

Lemma orderly_printed (printed : list output) : orderly (map Printed printed).
Proof.
  split_and!.
  - induction printed; constructor; [constructor|done].
  - apply speech_after_answer_printed.
  - by destruct printed.
Qed.

Lemma orderly_app (l k : list event) : orderly l -> orderly k -> orderly (l ++ k).
Proof.
  intros (Hl1 & Hl2 & Hl3) (Hk1 & Hk2 & Hk3). split_and!.
  - by apply Forall_app.
  - by apply speech_after_answer_app.
  - by destruct l.
Qed.

Lemma at_most_app (n m : nat) (l k : list event) :
  at_most n l -> at_most m k -> at_most (n + m) (l ++ k).
Proof.
  unfold at_most. intros (?&?&?) (?&?&?). rewrite !count_app. lia.
Qed.

Lemma at_most_printed (n : nat) (printed : list output) :
  at_most n (map Printed printed).
Proof. unfold at_most. rewrite !count_printed by done. lia. Qed.

Lemma at_most_le (n m : nat) (l : list event) :
  (n <= m)%nat -> at_most n l -> at_most m l.
Proof. unfold at_most. intros ? (?&?&?). lia. Qed.

Lemma answer_and_speak_eq user_input w :
  answer_and_speak user_input w
  = speak (ask user_input (print Thinking w)).1
      (print (Answer (ask user_input (print Thinking w)).1)
         (ask user_input (print Thinking w)).2).
Proof.
  unfold answer_and_speak. by destruct (ask user_input (print Thinking w)).
Qed.

(** The tail of the loop body, in full. *)
Lemma answer_and_speak_spec user_input w :
  exists calls speech,
    let answer := (ask user_input (print Thinking w)).1 in
    trace (answer_and_speak user_input w)
    = trace w ++ Printed Thinking :: calls ++ Printed (Answer answer) :: speech
    /\ self (answer_and_speak user_input w)
       = self (ask user_input (print Thinking w)).2
    /\ (truthy (strip user_input) = false /\ calls = []
        \/ truthy (strip user_input) = true
           /\ calls = [CompletionCall (request user_input w)])
    /\ (speech = []
        \/ muted (self w) = false
           /\ truthy (_clean_for_speech answer) = true
           /\ exists ev,
                aftermath ev
                /\ speech = [SpeechCall (_clean_for_speech answer); ev]).
Proof.
  rewrite answer_and_speak_eq.
  destruct (ask_spec user_input (print Thinking w)) as (_ & Hmuted & Hask).
  destruct (ask user_input (print Thinking w)) as [answer wa] eqn:Heq.
  simpl in *.
  destruct (speak_spec answer (print (Answer answer) wa)) as [Hself Hspeak].
  set (calls := if truthy (strip user_input)
                then [CompletionCall (request user_input w)] else []).
  assert (Hwa : trace wa = trace w ++ Printed Thinking :: calls).
  { unfold calls. destruct Hask as [[-> [= _ ->]]|(-> & -> & _)]; simpl.
    - done.
    - by rewrite <- app_assoc. }
  assert (Hcalls : truthy (strip user_input) = false /\ calls = []
                   \/ truthy (strip user_input) = true
                      /\ calls = [CompletionCall (request user_input w)]).
  { unfold calls. destruct (truthy (strip user_input)); [by right|by left]. }
  destruct Hspeak as [Hsame|(Hm & Hclean & ev & Hev & Htrace)].
  - exists calls, []. rewrite Hsame. simpl. rewrite Hwa.
    split_and!; [by rewrite <- app_assoc|done|done|by left].
  - exists calls, [SpeechCall (_clean_for_speech answer); ev].
    rewrite Htrace. simpl. rewrite Hwa.
    split_and!; [by rewrite <- !app_assoc|by rewrite Hself|done|].
    right. simpl in Hm. rewrite Hmuted in Hm. split_and!; [done|done|].
    by exists ev.
Qed.

Lemma answer_and_speak_orderly user_input w :
  exists new,
    trace (answer_and_speak user_input w) = trace w ++ new
    /\ orderly new /\ at_most 1 new
    /\ count is_transcription new = 0%nat
    /\ (muted (self w) = true -> count is_speech_call new = 0%nat)
    /\ (truthy (strip user_input) = false ->
        count is_completion_call new = 0%nat).
Proof.
  destruct (answer_and_speak_spec user_input w)
    as (calls & speech & Htrace & _ & Hcalls & Hspeech).
  eexists. split; [exact Htrace|].
  assert (Hemit : Forall emitted calls).
  { destruct Hcalls as [[_ ->]|[Hq ->]]; [done|].
    constructor; [|constructor]. unfold request. by apply emitted_completion. }
  destruct Hcalls as [[Hq ->]|[Hq ->]];
    destruct Hspeech as [->|(Hm & Hclean & ev & Hev & ->)];
    (split_and!;
     [split_and!;
      [repeat first [done | constructor | by inversion Hemit
                     | by (destruct Hev as [->|[d ->]]; constructor)]
      | simpl; rewrite ?Hclean, ?bool_decide_eq_true_2 by done;
        by (try destruct Hev as [->|[d ->]])
      | done ]
     | unfold at_most, count; simpl;
       try destruct Hev as [->|[d ->]]; simpl; lia
     | unfold count; simpl; try destruct Hev as [->|[d ->]]; done
     | intros Hmuted; unfold count; simpl; try congruence; done
     | intros Hblank; unfold count; simpl; try congruence;
       try destruct Hev as [->|[d ->]]; done ]).
Qed.

Lemma listen_orderly w :
  exists new,
    trace (listen w).2 = trace w ++ new
    /\ orderly new /\ at_most 1 new
    /\ count is_completion_call new = 0%nat
    /\ count is_speech_call new = 0%nat.
Proof.
  destruct (listen_spec w) as (_ & (first & printed & Htrace) & _).
  eexists. split; [exact Htrace|].
  assert (Hsplit : forall middle : list event,
             Printed first :: middle ++ map Printed printed
             = [Printed first] ++ middle ++ map Printed printed) by done.
  destruct SPEECH_RECOGNITION_AVAILABLE; rewrite Hsplit; split_and!.
  - apply (orderly_app [Printed first] (_ :: _)); [apply (orderly_printed [first])|].
    apply (orderly_app [Transcription]); [|apply orderly_printed].
    split_and!; [repeat constructor|done|done].
  - apply (at_most_app 0 1 [Printed first]); [apply (at_most_printed 0 [first])|].
    apply (at_most_app 1 0 [Transcription]); [|apply at_most_printed].
    unfold at_most, count. simpl. lia.
  - rewrite !count_app, (count_printed _ printed) by done. done.
  - rewrite !count_app, (count_printed _ printed) by done. done.
  - apply (orderly_app [Printed first]); [apply (orderly_printed [first])|].
    apply orderly_printed.
  - apply (at_most_app 0 1 [Printed first]); [apply (at_most_printed 0 [first])|].
    apply at_most_printed.
  - rewrite !count_app, (count_printed _ printed) by done. done.
  - rewrite !count_app, (count_printed _ printed) by done. done.
Qed.

(** One pass through the loop body adds an orderly record with at most
    one call of each kind. *)
Lemma run_body_orderly line w :
  exists new,
    trace (run_body line w).2 = trace w ++ new
    /\ orderly new /\ at_most 1 new.
Proof.
  destruct (run_body_cases line w)
    as [[_ ->]|[[_ ->]|[[_ ->]|[[_ ->]|[[_ ->]|[[_ ->]|[_ ->]]]]]]]; simpl.
  - exists [Printed Farewell].
    split_and!; [done|apply (orderly_printed [_])|apply (at_most_printed _ [_])].
  - exists [Printed StartingFresh].
    split_and!; [done|apply (orderly_printed [_])|apply (at_most_printed _ [_])].
  - exists [Printed VoiceMuted].
    split_and!; [done|apply (orderly_printed [_])|apply (at_most_printed _ [_])].
  - exists [Printed VoiceUnmuted].
    split_and!; [done|apply (orderly_printed [_])|apply (at_most_printed _ [_])].
  - destruct (listen_orderly w) as (heard & Hheard & Hok & Hmost & Hc & Hs).
    destruct (truthy (listen w).1); [|by exists heard].
    destruct (answer_and_speak_orderly (listen w).1 (listen w).2)
      as (new & Hnew & Hok' & Hmost' & Ht & _).
    exists (heard ++ new). rewrite Hnew, Hheard, <- app_assoc.
    split_and!; [done|by apply orderly_app|].
    unfold at_most in *. rewrite !count_app, Hc, Hs, Ht. lia.
  - exists []. split_and!; [by rewrite app_nil_r|apply orderly_nil|].
    apply (at_most_printed 1 []).
  - destruct (answer_and_speak_orderly (lower (strip line)) w)
      as (new & Hnew & Hok & Hmost & _). by exists new.
Qed.

(** The whole loop adds an orderly record with at most one call of each
    kind per input. *)
Lemma run_orderly (inputs : list stdin_event) :
  forall w,
    exists new,
      trace (run inputs w) = trace w ++ new
      /\ orderly new /\ at_most (length inputs) new.
Proof.
  induction inputs as [|ev inputs IH]; intros w.
  - exists [Printed Prompt].
    split_and!; [done|apply (orderly_printed [_])|apply (at_most_printed _ [_])].
  - destruct ev as [line|[]]; simpl.
    + destruct (run_body_orderly line (print Prompt w))
        as (new & Hnew & Hok & Hmost).
      destruct (run_body line (print Prompt w)) as [[] w'] eqn:Hbody;
        simpl in Hnew.
      * destruct (IH w') as (rest & Hrest & Hok' & Hmost').
        exists ([Printed Prompt] ++ new ++ rest).
        rewrite Hrest, Hnew. simpl. rewrite <- !app_assoc.
        split_and!; [done| |].
        -- apply (orderly_app [Printed Prompt]); [apply (orderly_printed [_])|].
           by apply orderly_app.
        -- apply (at_most_app 0 (S (length inputs)) [_]);
             [apply (at_most_printed _ [_])|].
           by apply (at_most_app 1 (length inputs)).
      * exists ([Printed Prompt] ++ new). rewrite Hnew. simpl.
        rewrite <- app_assoc.
        split_and!; [done| |].
        -- apply (orderly_app [Printed Prompt]); [apply (orderly_printed [_])|done].
        -- apply (at_most_app 0 (S (length inputs)) [_]);
             [apply (at_most_printed _ [_])|].
           apply (at_most_le 1); [lia|done].
    + exists [Printed Prompt; Printed Farewell].
      split_and!; [by rewrite <- app_assoc|apply (orderly_printed [_; _])
                  |apply (at_most_printed _ [_; _])].
    + exists [Printed Prompt].
      split_and!; [done|apply (orderly_printed [_])|apply (at_most_printed _ [_])].
Qed.

(** The agent after one pass: the key never changes; the muted flag
    changes only on [mute] and [unmute]; the history is emptied by
    [clear] and otherwise grows by nothing, by a question, or by a
    question and its answer. *)
Lemma run_body_agent line w :
  let user_input := lower (strip line) in
  let a := self w in
  let a' := self (run_body line w).2 in
  api_key a' = api_key a
  /\ (muted a' = muted a
      \/ user_input = of_ascii "mute" /\ muted a' = true
      \/ user_input = of_ascii "unmute" /\ muted a' = false)
  /\ (user_input = of_ascii "clear" /\ conversation_history a' = []
      \/ user_input <> of_ascii "clear"
         /\ exists question,
              conversation_history a' = conversation_history a
              \/ conversation_history a'
                 = conversation_history a ++ [Message user question]
              \/ exists answer,
                   conversation_history a'
                   = conversation_history a
                     ++ [Message user question; Message assistant answer]).
Proof.
  intros user_input a a'. unfold a', a.
  assert (Hasked : forall question w0,
             api_key (self (answer_and_speak question w0)) = api_key (self w0)
             /\ muted (self (answer_and_speak question w0)) = muted (self w0)
             /\ (conversation_history (self (answer_and_speak question w0))
                 = conversation_history (self w0)
                 \/ conversation_history (self (answer_and_speak question w0))
                    = conversation_history (self w0) ++ [Message user question]
                 \/ exists answer,
                      conversation_history (self (answer_and_speak question w0))
                      = conversation_history (self w0)
                        ++ [Message user question; Message assistant answer])).
  { intros question w0. rewrite answer_and_speak_eq, speak_self. simpl.
    destruct (ask_spec question (print Thinking w0))
      as (Hkey & Hmuted & [[_ ->]|(_ & _ & [Hh|Hh])]).
    - split_and!; try done. by left.
    - split_and!; try done. right. by left.
    - split_and!; try done. right. right. by eexists. }
  destruct (run_body_cases line w)
    as [[Hu ->]|[[Hu ->]|[[Hu ->]|[[Hu ->]|[[Hu ->]|[[Hu ->]|[Hu ->]]]]]]];
    fold user_input in Hu; simpl.
  - split_and!; [done|by left|]. right. split; [|exists []; by left].
    intros Hc. rewrite Hc in Hu. revert Hu.
    by apply (proj1 (bool_decide_eq_false _)).
  - split_and!; [done|by left|by left].
  - split_and!; [done|right; by left|]. right. rewrite Hu.
    split; [done|exists []; by left].
  - split_and!; [done|right; by right|]. right. rewrite Hu.
    split; [done|exists []; by left].
  - destruct (listen_spec w) as (Hself & _ & _).
    assert (Hne : user_input <> of_ascii "clear") by (by rewrite Hu).
    destruct (truthy (listen w).1).
    + destruct (Hasked (listen w).1 (listen w).2) as (Hk & Hm & Hh).
      rewrite Hself in Hk, Hm, Hh.
      split_and!; [done|by left|]. right. split; [done|].
      by exists (listen w).1.
    + rewrite Hself. split_and!; [done|by left|]. right.
      split; [done|exists []; by left].
  - split_and!; [done|by left|]. right. rewrite Hu.
    split; [done|exists []; by left].
  - destruct (Hasked user_input w) as (Hk & Hm & Hh).
    split_and!; [done|by left|]. right. split; [|by exists user_input].
    intros Hc. rewrite Hc in Hu. by vm_compute in Hu.
Qed.

End LoopSteps.

(** ** The loop as a whole *)

Section LoopProperties.

Context `{Collaborators}.

Implicit Types (line text : pystr) (w : world) (inputs : list stdin_event).

Lemma window_last (history : list message) (turn : message) :
  last (slice_from (-6) (append history turn)) = Some turn.
Proof.
  unfold append. rewrite (slice_from_last 6) by lia.
  rewrite drop_app_le by (rewrite length_app; simpl; lia).
  apply last_snoc.
Qed.

Lemma answers_follow_snoc (history : list message) (question : pystr) :
  forall after_user,
    answers_follow after_user history = true ->
    answers_follow after_user (history ++ [Message user question]) = true
    /\ forall answer,
         answers_follow after_user
           (history ++ [Message user question; Message assistant answer])
         = true.
Proof.
  induction history as [|turn history IH]; intros after_user; simpl; [done|].
  destruct (msg_role turn); try done; [by apply IH|].
  intros [-> Hrest]%andb_prop. simpl. by apply IH.
Qed.

Lemma run_body_muted line w :
  muted (self w) = true ->
  lower (strip line) <> of_ascii "unmute" ->
  muted (self (run_body line w).2) = true
  /\ exists new,
       trace (run_body line w).2 = trace w ++ new
       /\ count is_speech_call new = 0%nat.
Proof.
  intros Hm Hu. split.
  - destruct (run_body_agent line w) as (_ & [Hsame|[[_ Hset]|[Hun _]]] & _);
      [by rewrite Hsame|done|done].
  - destruct (run_body_cases line w)
      as [[_ ->]|[[_ ->]|[[_ ->]|[[Hun _]|[[_ ->]|[[_ ->]|[_ ->]]]]]]]; simpl.
    + by exists [Printed Farewell].
    + by exists [Printed StartingFresh].
    + by exists [Printed VoiceMuted].
    + done.
    + destruct (listen_orderly w) as (heard & Hheard & _ & _ & _ & Hs).
      destruct (listen_spec w) as (Hself & _).
      destruct (truthy (listen w).1); [|by exists heard].
      destruct (answer_and_speak_orderly (listen w).1 (listen w).2)
        as (new & Hnew & _ & _ & _ & Hquiet & _).
      exists (heard ++ new). rewrite Hnew, Hheard, <- app_assoc.
      split; [done|]. rewrite count_app, Hs, Hquiet; [done|].
      by rewrite Hself.
    + exists []. by rewrite app_nil_r.
    + destruct (answer_and_speak_orderly (lower (strip line)) w)
        as (new & Hnew & _ & _ & _ & Hquiet & _).
      exists new. split; [done|]. by apply Hquiet.
Qed.

(** X4. Whatever is typed, heard or answered, the loop sends a text to
    the speech service only right after it has printed an answer, and the
    text is the sanitized form of that answer and is not empty. *)
Theorem speech_only_after_answer inputs w new before input after :
  trace (run inputs w) = trace w ++ new ->
  new = before ++ SpeechCall input :: after ->
  input <> []
  /\ exists before' answer,
       before = before' ++ [Printed (Answer answer)]
       /\ input = _clean_for_speech answer.
Proof.
  intros Htrace Hnew.
  destruct (run_orderly inputs w) as (new' & Htrace' & (_ & Hok & _) & _).
  rewrite Htrace' in Htrace. apply app_inv_head in Htrace. subst new'.
  destruct (speech_after_answer_spec _ _ _ _ _ Hok Hnew)
    as [Hne (a & -> & [[_ ?]|[before' ->]])]; [done|].
  split; [done|]. by exists before', a.
Qed.

(** X5. Every completion call of the loop carries the system prompt
    followed by at least one and at most six turns, the last of which is
    a user turn whose content is not blank: a request never has more than
    seven messages, however long the session. *)
Theorem requests_bounded inputs w new messages :
  trace (run inputs w) = trace w ++ new ->
  CompletionCall messages ∈ new ->
  exists window question,
    messages = Message system SYSTEM_PROMPT :: window
    /\ (1 <= length window <= 6)%nat
    /\ last window = Some (Message user question)
    /\ strip question <> [].
Proof.
  intros Htrace Hin.
  destruct (run_orderly inputs w) as (new' & Htrace' & (Hemit & _) & _).
  rewrite Htrace' in Htrace. apply app_inv_head in Htrace. subst new'.
  rewrite Forall_forall in Hemit. specialize (Hemit _ Hin).
  inversion Hemit as [|question history Hq| | |]; subst.
  exists (slice_from (-6) (append history (Message user question))), question.
  split_and!; [done| | |apply window_last|by apply truthy_true].
  - rewrite (slice_from_last_length 6) by lia.
    unfold append. rewrite length_app. cbn [length]. lia.
  - rewrite (slice_from_last_length 6) by lia. lia.
Qed.

(** X6. The loop makes at most one completion call, one speech call and
    one transcription for each input it is given. *)
Theorem calls_per_input inputs w new :
  trace (run inputs w) = trace w ++ new ->
  (count is_completion_call new <= length inputs)%nat
  /\ (count is_speech_call new <= length inputs)%nat
  /\ (count is_transcription new <= length inputs)%nat.
Proof.
  intros Htrace.
  destruct (run_orderly inputs w) as (new' & Htrace' & _ & Hmost).
  rewrite Htrace' in Htrace. apply app_inv_head in Htrace. by subst new'.
Qed.

(** X7. A session that is muted and is given no [unmute] stays muted and
    makes no speech call, whatever else is typed or heard. *)
Theorem muted_loop_silent inputs w new :
  muted (self w) = true ->
  Forall (fun ev => forall line,
              ev = Line line -> lower (strip line) <> of_ascii "unmute")
    inputs ->
  trace (run inputs w) = trace w ++ new ->
  muted (self (run inputs w)) = true
  /\ count is_speech_call new = 0%nat.
Proof.
  intros Hm Hinputs Htrace.
  cut (muted (self (run inputs w)) = true
       /\ exists new', trace (run inputs w) = trace w ++ new'
                       /\ count is_speech_call new' = 0%nat).
  { intros (? & new' & Htrace' & ?). rewrite Htrace' in Htrace.
    apply app_inv_head in Htrace. by subst new'. }
  clear new Htrace. revert w Hm.
  induction Hinputs as [|ev inputs Hev _ IH]; intros w Hm.
  - split; [done|]. by exists [Printed Prompt].
  - destruct ev as [line|[]]; simpl.
    + destruct (run_body_muted line (print Prompt w) Hm (Hev _ eq_refl))
        as (Hm' & new & Hnew & Hquiet).
      destruct (run_body line (print Prompt w)) as [[] w'] eqn:Hbody;
        simpl in *.
      * destruct (IH w' Hm') as (Hm'' & rest & Hrest & Hquiet').
        split; [done|]. exists ([Printed Prompt] ++ new ++ rest).
        rewrite Hrest, Hnew, <- !app_assoc. split; [done|].
        rewrite !count_app, Hquiet, Hquiet'. done.
      * split; [done|]. exists ([Printed Prompt] ++ new).
        rewrite Hnew, <- !app_assoc. split; [done|].
        by rewrite count_app, Hquiet.
    + split; [done|]. exists [Printed Prompt; Printed Farewell].
      by rewrite <- app_assoc.
    + split; [done|]. by exists [Printed Prompt].
Qed.

Lemma run_key inputs :
  forall w, api_key (self (run inputs w)) = api_key (self w).
Proof.
  induction inputs as [|[line|[]] inputs IH]; intros w; simpl; try done.
  destruct (run_body_agent line (print Prompt w)) as (Hkey & _).
  destruct (run_body line (print Prompt w)) as [[] w']; simpl in *; [|done].
  by rewrite IH.
Qed.

(** X8. A session is never built with an empty key, and the key it was
    built with is the key it holds when the loop ends, whatever the loop
    went through. *)
Theorem session_key_kept explicit cfg env log agent log' inputs :
  __init__ explicit cfg env log = (Returned agent, log') ->
  api_key agent <> []
  /\ conversation_history agent = []
  /\ muted agent = false
  /\ api_key (self (run inputs (World agent log'))) = api_key agent.
Proof.
  intros Hinit. rewrite run_key. simpl.
  pose proof (init_outcome explicit cfg env log) as Hout.
  rewrite Hinit in Hout. simpl in Hout. unfold first_nonempty in Hout.
  destruct (head _) as [key|] eqn:Hhead; [|done].
  inversion Hout; subst. simpl. split_and!; try done.
  apply head_Some_elem_of in Hhead.
  apply list_elem_of_omap in Hhead as (v & _ & Hv).
  by destruct v as [[|c k]|]; inversion Hv.
Qed.

(** X9. In the history every answer follows a question: if each
    assistant turn comes right after a user turn (and no turn is a system
    turn) before the loop, so it is after it. *)
Theorem history_stays_paired inputs w :
  answers_follow false (conversation_history (self w)) = true ->
  answers_follow false (conversation_history (self (run inputs w))) = true.
Proof.
  revert w. induction inputs as [|[line|[]] inputs IH]; intros w Hw; simpl;
    try done.
  assert (Hstep : answers_follow false
                    (conversation_history
                       (self (run_body line (print Prompt w)).2)) = true).
  { destruct (run_body_agent line (print Prompt w))
      as (_ & _ & [[_ ->]|(_ & question & [->|[->|[answer ->]]])]);
      simpl; try done; by apply answers_follow_snoc. }
  destruct (run_body line (print Prompt w)) as [[] w']; simpl in *; [|done].
  by apply IH.
Qed.

(** X10. What is typed after the loop has stopped is never looked at:
    the inputs that follow a quit word, an interrupt or the end of the
    input change nothing. *)
Theorem nothing_after_stop (before after : list stdin_event)
    (ev : stdin_event) w :
  stops ev ->
  run (before ++ ev :: after) w = run (before ++ [ev]) w.
Proof.
  intros Hstop. revert w.
  induction before as [|[line|[]] before IH]; intros w; simpl; try done.
  - destruct ev as [line|[]]; simpl in *; try done.
    destruct (run_body_cases line (print Prompt w)) as [[_ ->]|Hother];
      [done|].
    unfold run_body.
    by rewrite (bool_decide_eq_true_2 _ Hstop).
  - destruct (run_body line (print Prompt w)) as [[] w']; [|done].
    apply IH.
Qed.

End LoopProperties.

(** ** Voice, [clear] and the history *)

Section VoiceAndHistory.

Context `{Collaborators}.

Implicit Types (line text : pystr) (w : world).

(** X11. When [voice] is typed and nothing comes back from the
    transcription (it is not available, it fails, or it recognizes the
    empty text), the loop goes on to the next prompt: the agent is as
    before and neither the completion nor the speech service is called. *)
Theorem voice_heard_nothing line w :
  lower (strip line) = of_ascii "voice" ->
  (SPEECH_RECOGNITION_AVAILABLE = true ->
   forall text,
     transcribe (trace w ++ [Printed Listening]) = Recognized text ->
     text = []) ->
  (run_body line w).1 = Next
  /\ self (run_body line w).2 = self w
  /\ exists new,
       trace (run_body line w).2 = trace w ++ new
       /\ count is_completion_call new = 0%nat
       /\ count is_speech_call new = 0%nat.
Proof.
  intros Hvoice Hnothing.
  destruct (listen_spec w) as (Hself & _ & Hheard).
  assert (Hempty : (listen w).1 = []).
  { destruct (decide ((listen w).1 = [])) as [|Hne]; [done|].
    destruct (Hheard Hne) as [Hav Hrec]. by apply (Hnothing Hav). }
  rewrite (run_body_voice _ _ Hvoice), Hempty. simpl.
  destruct (listen_orderly w) as (new & Hnew & _ & _ & Hc & Hs).
  split_and!; [done|done|]. by exists new.
Qed.

(** X12. A transcription that is not empty but blank is not asked, yet
    it is answered: no completion call is made, the fixed message for a
    blank question is printed as the answer, and the agent is as before;
    when the session is not muted the message is also sent to the speech
    service, when it is muted nothing more happens. *)
Theorem blank_voice_is_spoken line text w :
  lower (strip line) = of_ascii "voice" ->
  SPEECH_RECOGNITION_AVAILABLE = true ->
  transcribe (trace w ++ [Printed Listening]) = Recognized text ->
  text <> [] ->
  strip text = [] ->
  (run_body line w).1 = Next
  /\ self (run_body line w).2 = self w
  /\ exists speech,
       trace (run_body line w).2
       = trace w ++ [Printed Listening; Transcription; Printed Processing;
                     Printed (YouSaid text); Printed Thinking;
                     Printed (Answer please_ask)] ++ speech
       /\ (muted (self w) = true -> speech = [])
       /\ (muted (self w) = false ->
           exists ev, aftermath ev /\ speech = [SpeechCall please_ask; ev]).
Proof.
  intros Hvoice Hav Hheard Hne Hblank.
  rewrite (run_body_voice _ _ Hvoice), (listen_recognized _ _ Hav Hheard).
  simpl. apply truthy_true in Hne. rewrite Hne.
  rewrite answer_and_speak_eq, ask_blank by (by rewrite Hblank). simpl.
  split; [done|]. split; [by rewrite speak_self|].
  unfold speak. simpl.
  replace (_clean_for_speech please_ask) with please_ask by (by vm_compute).
  destruct (muted (self w)); simpl.
  - exists []. split_and!; [by rewrite <- !app_assoc|done|done].
  - destruct (audio_speech_create _ _); simpl; eexists;
      (split_and!; [by rewrite <- !app_assoc|done|intros _; eexists]).
    + split; [by left|done].
    + split; [right; by eexists|done].
Qed.

(** X13. After [clear] nothing of the earlier dialogue is sent any more:
    the request made for the next question consists of the system prompt
    and that question alone. *)
Theorem clear_forgets_context line_clear line w :
  lower (strip line_clear) = of_ascii "clear" ->
  is_question (lower (strip line)) = true ->
  truthy (strip (lower (strip line))) = true ->
  let cleared := (run_body line_clear w).2 in
  conversation_history (self cleared) = []
  /\ exists after,
       trace (run_body line cleared).2
       = trace cleared
         ++ Printed Thinking
            :: CompletionCall [Message system SYSTEM_PROMPT;
                               Message user (lower (strip line))]
            :: after.
Proof.
  intros Hclear Hq Hasked cleared.
  assert (Hempty : conversation_history (self cleared) = []).
  { unfold cleared. by rewrite (run_body_clear _ _ Hclear). }
  split; [done|].
  rewrite (run_body_question _ _ Hq). simpl.
  destruct (asked_then_printed (lower (strip line)) cleared Hasked)
    as (Hstep & Htrace & _).
  rewrite Hstep.
  destruct (speak_appends
              (ask (lower (strip line)) (print Thinking cleared)).1
              (print (Answer (ask (lower (strip line))
                                (print Thinking cleared)).1)
                 (ask (lower (strip line)) (print Thinking cleared)).2))
    as [after Hspeak].
  eexists (_ :: after). rewrite Hspeak, Htrace, <- app_assoc.
  unfold request. by rewrite Hempty.
Qed.

(** X14. Only [clear] takes turns away: on any other line the history
    after the pass begins with the history before it, and is longer by
    two turns at most. *)
Theorem history_grows_unless_clear line w :
  lower (strip line) <> of_ascii "clear" ->
  conversation_history (self w)
    `prefix_of` conversation_history (self (run_body line w).2)
  /\ (length (conversation_history (self (run_body line w).2))
      <= length (conversation_history (self w)) + 2)%nat.
Proof.
  intros Hne.
  destruct (run_body_agent line w)
    as (_ & _ & [[? _]|(_ & question & [->|[->|[answer ->]]])]); [done|..].
  - split; [done|lia].
  - split; [by eexists|]. rewrite length_app. simpl. lia.
  - split; [by eexists|]. rewrite length_app. simpl. lia.
Qed.

End VoiceAndHistory.

(** ** The key, from the record to the session *)

Section KeyProperties.

Context `{Collaborators}.

Implicit Types (explicit env : option pystr) (cfg : config_file).

Lemma emitted_printed (printed : list output) :
  Forall emitted (map Printed printed).
Proof. induction printed; constructor; [constructor|done]. Qed.

Lemma init_log_returned explicit cfg env log agent log' :
  __init__ explicit cfg env log = (Returned agent, log') ->
  exists printed, log' = (log ++ map Printed printed) ++ [Printed Banner].
Proof.
  unfold __init__.
  destruct (load_api_key_from_config_log cfg log) as [warnings Hlog].
  destruct (load_api_key_from_config cfg log) as [from_config log0].
  simpl in Hlog. subst log0.
  destruct (truthy_opt explicit) eqn:He.
  - destruct (truthy_opt_first _ He) as (c & k & ->). simpl.
    intros [= _ <-]. exists []. simpl. by rewrite app_nil_r.
  - destruct (truthy_opt from_config) eqn:Hc.
    + destruct (truthy_opt_first _ Hc) as (c & k & ->). simpl.
      intros [= _ <-]. by exists warnings.
    + destruct env as [[|c k]|]; simpl; try done.
      intros [= _ <-]. by exists warnings.
Qed.

(** Whatever cuts it short, the [try] statement only adds to the record,
    and what it adds are events of the kinds the loop emits. *)
Lemma main_session_log (api_key : pystr) cfg env inputs log m :
  exists new,
    (main_session api_key cfg env inputs log m).2 = log ++ new
    /\ Forall emitted new.
Proof.
  unfold main_session.
  destruct (__init__ (Some api_key) cfg env log) as [[agent|e] log'] eqn:Hinit.
  - destruct (init_log_returned _ _ _ _ _ _ Hinit) as [printed ->].
    assert (Hpre : Forall emitted (map Printed printed ++ [Printed Banner])).
    { apply Forall_app. split; [apply emitted_printed|].
      repeat constructor. }
    set (log' := (log ++ map Printed printed) ++ [Printed Banner]).
    destruct (run_orderly inputs (World agent log'))
      as (new & Hnew & (Hemit & _) & _).
    simpl in Hnew.
    destruct m as [[e|events_kept value_error]|]; simpl.
    + unfold log'. rewrite removelast_last.
      destruct e; simpl; eexists; rewrite <- ?app_assoc;
        (split; [done|]); rewrite ?app_nil_r;
        try apply Forall_app; try split; try apply emitted_printed;
        repeat constructor.
    + rewrite Hnew, drop_app_length.
      destruct (decide (events_kept < length new)%nat);
        [destruct value_error|]; simpl; eexists;
        unfold log'; rewrite <- ?app_assoc; (split; [done|]);
        repeat (apply Forall_app; split); try apply emitted_printed;
        try (by apply Forall_take); try done; repeat constructor.
    + rewrite Hnew. unfold log'. eexists. rewrite <- !app_assoc.
      split; [done|]. repeat (apply Forall_app; split);
        try apply emitted_printed; try done; repeat constructor.
  - destruct (init_log (Some api_key) cfg env log) as [printed Hlog].
    rewrite Hinit in Hlog. simpl in Hlog. subst log'.
    exists (map Printed printed ++ [Printed ErrorLine]).
    rewrite <- app_assoc. split; [done|].
    apply Forall_app. split; [apply emitted_printed|repeat constructor].
Qed.

Lemma saved_config_record (key : pystr) :
  record_credential (saved_config key) = Some key.
Proof. unfold saved_config, record_credential. by rewrite lookup_singleton_eq. Qed.

(** X15. A key read from the configuration record is never empty and
    never has white space around it: it is the stored string, stripped;
    and reading it prints no warning. *)
Theorem config_key_is_trimmed cfg log key log' :
  load_api_key_from_config cfg log = (Some key, log') ->
  key <> []
  /\ trimmed key = true
  /\ log' = log
  /\ exists stored, record_credential cfg = Some stored /\ key = strip stored.
Proof.
  intros Hload.
  pose proof (load_api_key_from_config_value cfg log) as Hvalue.
  rewrite Hload in Hvalue. simpl in Hvalue.
  destruct (record_credential cfg) as [stored|] eqn:Hrecord; [|done].
  destruct (truthy (strip stored)) eqn:Ht; [|done].
  inversion Hvalue; subst. split_and!.
  - by apply truthy_true.
  - apply strip_trimmed.
  - destruct cfg as [| | |d]; simpl in *; try done.
    destruct (d !! openai_api_key) as [[s|]|]; simpl in *; try done.
    destruct (truthy (strip s)); by inversion Hload.
  - by exists stored.
Qed.

(** X16. When no key is found, one is typed at the prompt and writing
    the record goes through, [main] writes the typed line, trimmed, to
    the record and reports it saved; and reading back the record that
    was written gives exactly that key. *)
Theorem typed_key_round_trip cfg env typed rest log m :
  (load_api_key_from_config cfg []).1 = None ->
  truthy_opt env = false ->
  strip typed <> [] ->
  config_write ((load_api_key_from_config cfg []).2
                ++ [Printed KeyNotFound; Printed KeyPrompt]) = Returned tt ->
  (exists after,
      (main cfg env (Line typed :: rest) m).2
      = (load_api_key_from_config cfg []).2
        ++ [Printed KeyNotFound; Printed KeyPrompt;
            ConfigWrite (strip typed); Printed KeySaved] ++ after)
  /\ load_api_key_from_config (saved_config (strip typed)) log
     = (Some (strip typed), log).
Proof.
  intros Hnone Henv Htyped Hwrite. unfold main.
  destruct (load_api_key_from_config cfg []) as [from_config log0].
  simpl in Hnone, Hwrite. subst from_config. simpl.
  apply truthy_true in Htyped. rewrite Htyped, Hwrite. simpl.
  split.
  - assert (Hfound : match env with
                     | Some (c :: k) => False
                     | _ => True
                     end) by (by destruct env as [[|c k]|]).
    destruct env as [[|c k]|]; try done;
      match goal with
      | |- context [main_session ?k _ ?e _ ?l _] =>
        destruct (main_session_log k cfg e rest l m) as (new & -> & _)
      end; exists new; by rewrite <- !app_assoc.
  - unfold saved_config. simpl. rewrite lookup_singleton_eq. simpl.
    by rewrite strip_idemp, Htyped.
Qed.

(** X18. When the record or the environment provides a key, [main]
    writes nothing to the record, whatever happens in the session. *)
Theorem key_found_no_write cfg env inputs m key :
  truthy_opt (load_api_key_from_config cfg []).1 = true
  \/ truthy_opt env = true ->
  ConfigWrite key ∉ (main cfg env inputs m).2.
Proof.
  intros Hfound. unfold main.
  destruct (load_api_key_from_config_log cfg []) as [warnings Hlog].
  destruct (load_api_key_from_config cfg []) as [from_config log0].
  simpl in *. subst log0.
  assert (Hgo : truthy_opt (if truthy_opt from_config then from_config else env)
                = true).
  { destruct (truthy_opt from_config) eqn:Hc; [done|]. by destruct Hfound. }
  destruct (truthy_opt_first _ Hgo) as (c & k & ->).
  destruct (main_session_log (c :: k) cfg env inputs (map Printed warnings) m)
    as (new & -> & Hemit).
  rewrite !elem_of_app. intros [Hin|Hin].
  - apply list_elem_of_fmap in Hin as (o & Ho & _). done.
  - rewrite Forall_forall in Hemit. specialize (Hemit _ Hin).
    inversion Hemit.
Qed.

End KeyProperties.

(** ** The setup script *)

Lemma skip_class_suffix (cls : N -> bool) (s : pystr) :
  skip_class cls s `suffix_of` s.
Proof.
  induction s as [|c s IH]; simpl; [done|].
  destruct (cls c); [by apply suffix_cons_r|done].
Qed.

Lemma skip_class_head (cls : N -> bool) (s : pystr) (c : N) :
  head (skip_class cls s) = Some c -> cls c = false.
Proof.
  pose proof (skip_class_starts cls s) as Hs.
  destruct (skip_class cls s); simpl; [done|]. by intros [= <-].
Qed.

Lemma strip_chars_ends (chars s : pystr) (c : N) :
  head (SetupKey.strip_chars chars s) = Some c
  \/ last (SetupKey.strip_chars chars s) = Some c ->
  c ∉ chars.
Proof.
  unfold SetupKey.strip_chars.
  set (among := fun c => bool_decide (c ∈ chars)).
  set (t := skip_class among s).
  intros Hc. cut (among c = false).
  { unfold among. by intros ?%bool_decide_eq_false. }
  destruct Hc as [Hc|Hc].
  - destruct (skip_class_suffix among (rev t)) as [k Hk].
    apply (f_equal (@rev N)) in Hk.
    rewrite rev_involutive, rev_app_distr in Hk.
    destruct (rev (skip_class among (rev t))) as [|c' r]; [done|].
    simpl in Hc. inversion Hc; subst c'.
    apply (skip_class_head among s). fold t. by rewrite Hk.
  - apply (skip_class_head among (rev t)).
    pose proof (last_reverse (skip_class among (rev t))) as Hlast.
    unfold reverse in Hlast. rewrite <- rev_alt in Hlast.
    by rewrite <- Hlast.
Qed.

Lemma lstrip_snoc (s : pystr) (c : N) :
  isspace c = false -> lstrip (s ++ [c]) = lstrip s ++ [c].
Proof.
  intros Hc. induction s as [|x s IH]; simpl; [by rewrite Hc|].
  by destruct (isspace x).
Qed.

Lemma strip_cons (s : pystr) (c : N) :
  isspace c = false -> strip (c :: s) = c :: rstrip s.
Proof.
  intros Hc. unfold strip. simpl. rewrite Hc. unfold rstrip. simpl.
  by rewrite lstrip_snoc, rev_app_distr.
Qed.

Section SetupScript.

Variable lower : pystr -> pystr.
Variable write : list SetupKey.event -> outcome unit.

Import SetupKey.

#[local] Opaque startswith of_ascii strip strip_chars mask.

Lemma save_log (key : pystr) (log : list event) :
  exists shown, (save write key log).2 = log ++ Written key :: map Shown shown.
Proof.
  unfold save. destruct (write log) as [|e]; simpl.
  - exists [Saved; Complete]. by rewrite <- app_assoc.
  - exists [SaveError e]. by rewrite <- app_assoc.
Qed.

(** What [enter_key] writes, it writes once, after everything it was
    given to start with, and it is the typed line, trimmed and unquoted,
    not empty, and confirmed if it lacks the prefix. *)
Lemma enter_key_written (inputs : list stdin_event) (log : list event)
    (key : pystr) :
  Written key ∈ (enter_key lower write inputs log).2 ->
  Written key ∈ log
  \/ key <> []
     /\ (exists typed rest,
           inputs = Line typed :: rest
           /\ key = strip_chars quotes (strip typed)
           /\ (startswith (of_ascii "sk-") key = false ->
               exists confirm rest',
                 rest = Line confirm :: rest'
                 /\ lower (strip confirm) = of_ascii "y")).
Proof.
  unfold enter_key.
  assert (Hshown : forall (l : list event) shown,
             Written key ∈ l ++ map Shown shown -> Written key ∈ l).
  { intros l shown [Hin|Hin]%elem_of_app; [done|].
    by apply list_elem_of_fmap in Hin as (o & Ho & _). }
  assert (Hsave : forall k l,
             Written key ∈ (save write k l).2 -> Written key ∈ l \/ key = k).
  { intros k l. destruct (save_log k l) as [shown ->].
    intros [Hin|Hin]%elem_of_app; [by left|].
    apply elem_of_cons in Hin as [[= ->]|Hin]; [by right|].
    by apply list_elem_of_fmap in Hin as (o & Ho & _). }
  destruct inputs as [|[typed|e] rest]; simpl;
    try (intros Hin; left; by apply (Hshown log [Instructions])).
  set (api_key := strip_chars quotes (strip typed)).
  destruct (truthy api_key) eqn:Ht; simpl.
  2:{ intros Hin. left. apply (Hshown log [Instructions; NoKeyEntered]).
      by rewrite <- app_assoc in Hin. }
  apply truthy_true in Ht.
  destruct (startswith (of_ascii "sk-") api_key) eqn:Hprefix; simpl.
  - intros [Hin| ->]%Hsave; [left; by apply (Hshown log [Instructions])|].
    right. split; [done|]. exists typed, rest. split_and!; [done|done|].
    fold api_key. congruence.
  - destruct rest as [|[confirm|e] rest'];
      try (intros Hin; left; apply (Hshown log [Instructions; PrefixWarning]);
           by rewrite <- app_assoc in Hin).
    case_bool_decide as Hy.
    + intros [Hin| ->]%Hsave.
      * left. apply (Hshown log [Instructions; PrefixWarning]).
        by rewrite <- app_assoc in Hin.
      * right. split; [done|]. exists typed, (Line confirm :: rest').
        split_and!; [done|done|]. intros _. by exists confirm, rest'.
    + intros Hin. left. apply (Hshown log [Instructions; PrefixWarning]).
      by rewrite <- app_assoc in Hin.
Qed.

Lemma main_written (cfg : config_file)
    (inputs : list stdin_event) (key : pystr) :
  Written key ∈ (main lower write cfg inputs).2 ->
  key <> []
  /\ (forall c, head key = Some c \/ last key = Some c -> c ∉ quotes)
  /\ (exists choices typed rest,
        inputs = choices ++ Line typed :: rest
        /\ key = strip_chars quotes (strip typed)
        /\ (startswith (of_ascii "sk-") key = false ->
            exists confirm rest',
              rest = Line confirm :: rest'
              /\ lower (strip confirm) = of_ascii "y")
        /\ match existing cfg with
           | Some (_ :: _) =>
             exists choice,
               choices = [Line choice] /\ lower (strip choice) = of_ascii "y"
           | _ => choices = []
           end)
  /\ (forall old, existing cfg = Some old -> old <> [] ->
      exists choice rest,
        inputs = Line choice :: rest
        /\ lower (strip choice) = of_ascii "y").
Proof.
  unfold main. intros Hin.
  assert (Hgoal : forall choices inputs' log,
             (forall k, Written k ∉ log) ->
             inputs = choices ++ inputs' ->
             Written key ∈ (enter_key lower write inputs' log).2 ->
             key <> []
             /\ (forall c, head key = Some c \/ last key = Some c -> c ∉ quotes)
             /\ (exists typed rest,
                   inputs = choices ++ Line typed :: rest
                   /\ key = strip_chars quotes (strip typed)
                   /\ (startswith (of_ascii "sk-") key = false ->
                       exists confirm rest',
                         rest = Line confirm :: rest'
                         /\ lower (strip confirm) = of_ascii "y"))).
  { intros choices inputs' log Hlog -> Hw.
    apply enter_key_written in Hw as [Hw|(Hne & typed & rest & -> & -> & Hc)];
      [by apply Hlog in Hw|].
    split_and!; [done| |].
    - intros c. apply strip_chars_ends.
    - by exists typed, rest. }
  assert (Hheader : forall k, Written k ∉ [Shown Header]).
  { intros k [[=]|[]%elem_of_nil]%elem_of_cons. }
  destruct (existing cfg) as [[|c k]|] eqn:Hex.
  - destruct (Hgoal [] inputs [Shown Header])
      as (? & ? & typed & rest & ? & ? & ?); [done|done|done|].
    split_and!; [done|done| |by intros old [= <-]].
    by exists [], typed, rest.
  - destruct inputs as [|[choice|e] rest]; simpl in Hin.
    + by apply elem_of_cons in Hin as [[=]|[[=]|[]%elem_of_nil]%elem_of_cons].
    + case_bool_decide as Hy.
      * destruct (Hgoal [Line choice] rest
                    [Shown Header; Shown (CurrentKey (mask (c :: k)))])
          as (? & ? & typed & rest' & ? & ? & ?); [|done|done|].
        { intros k' Hk. repeat (apply elem_of_cons in Hk as [[=]|Hk]).
          by apply elem_of_nil in Hk. }
        split_and!; [done|done| |].
        -- exists [Line choice], typed, rest'.
           split_and!; [done|done|done|]. by exists choice.
        -- intros old _ _. by exists choice, rest.
      * repeat (apply elem_of_cons in Hin as [[=]|Hin]).
        by apply elem_of_nil in Hin.
    + repeat (apply elem_of_cons in Hin as [[=]|Hin]).
      by apply elem_of_nil in Hin.
  - destruct (Hgoal [] inputs [Shown Header])
      as (? & ? & typed & rest & ? & ? & ?); [done|done|done|].
    split_and!; [done|done| |by intros old [=]].
    by exists [], typed, rest.
Qed.

(** X19. The script writes a key only with care.  The key written is a
    typed line, trimmed and with the quotes around it removed; it is not
    empty and neither begins nor ends with a quote.  That line is the
    first line of the input, or the second when the record already held
    a non-empty key, and then the first line said "y".  And a key that
    does not begin with "sk-" is written only when the line that comes
    right after it said "y". *)
Theorem setup_writes_carefully (cfg : config_file)
    (inputs : list stdin_event) (key : pystr) :
  Written key ∈ (main lower write cfg inputs).2 ->
  key <> []
  /\ (forall c, head key = Some c \/ last key = Some c -> c ∉ quotes)
  /\ (exists choices typed rest,
        inputs = choices ++ Line typed :: rest
        /\ key = strip_chars quotes (strip typed)
        /\ (startswith (of_ascii "sk-") key = false ->
            exists confirm rest',
              rest = Line confirm :: rest'
              /\ lower (strip confirm) = of_ascii "y")
        /\ match existing cfg with
           | Some (_ :: _) =>
             exists choice,
               choices = [Line choice] /\ lower (strip choice) = of_ascii "y"
           | _ => choices = []
           end)
  /\ (forall old, existing cfg = Some old -> old <> [] ->
      exists choice rest,
        inputs = Line choice :: rest
        /\ lower (strip choice) = of_ascii "y").
Proof. apply main_written. Qed.

#[local] Transparent startswith of_ascii strip.

Lemma rstrip_cons (s : pystr) (c : N) :
  isspace c = false -> rstrip (c :: s) = c :: rstrip s.
Proof.
  intros Hc. unfold rstrip. simpl. by rewrite lstrip_snoc, rev_app_distr.
Qed.

(** X20. What the script writes, the agent finds again: a written key
    that begins with "sk-" is read back by the agent, with the white
    space after it removed and the prefix in place; and the agent reads
    back exactly the key that was written when, and only when, that key
    has no white space around it. *)
Theorem setup_key_read_back (cfg : config_file) (inputs : list stdin_event)
    (key : pystr) log :
  Written key ∈ (main lower write cfg inputs).2 ->
  (startswith (of_ascii "sk-") key = true ->
   load_api_key_from_config (saved_config key) log = (Some (strip key), log)
   /\ startswith (of_ascii "sk-") (strip key) = true)
  /\ ((load_api_key_from_config (saved_config key) log).1 = Some key
      <-> trimmed key = true).
Proof.
  intros Hw. apply main_written in Hw as (Hne & _).
  assert (Hload : load_api_key_from_config (saved_config key) log
                  = (if truthy (strip key) then Some (strip key) else None,
                     log)).
  { unfold saved_config. simpl. rewrite lookup_singleton_eq. simpl.
    by destruct (truthy (strip key)). }
  rewrite Hload. split.
  - intros Hprefix.
    change (of_ascii "sk-") with [115; 107; 45] in Hprefix.
    destruct key as [|c1 [|c2 [|c3 rest]]]; cbn [startswith] in Hprefix;
      rewrite ?andb_false_r in Hprefix; try done.
    apply andb_prop in Hprefix as [H1 Hprefix].
    apply andb_prop in Hprefix as [H2 Hprefix].
    apply andb_prop in Hprefix as [H3 _].
    apply N.eqb_eq in H1, H2, H3. subst c1 c2 c3.
    rewrite strip_cons, !rstrip_cons by done. by simpl.
  - simpl. split.
    + destruct (truthy (strip key)); [|done]. intros [= Hs].
      rewrite <- Hs. apply strip_trimmed.
    + intros Ht. rewrite (trimmed_strip _ Ht).
      apply truthy_true in Hne. by rewrite Hne.
Qed.

End SetupScript.

(** X21. The mask the script prints hides nothing of a short key: up to
    eleven characters, the seven it shows first and the four it shows last
    cover the whole key, and a key of at most seven characters is printed
    in full at the start of the mask; from eleven characters on the mask
    has fourteen characters and hides all but eleven of the key's. *)
Theorem mask_shows_short_keys (key : pystr) :
  ((length key <= 7)%nat -> key `prefix_of` SetupKey.mask key)
  /\ ((length key <= 11)%nat ->
      drop 7 key `suffix_of` slice_from (-4) key)
  /\ ((11 <= length key)%nat ->
      length (SetupKey.mask key) = 14%nat
      /\ exists hidden,
           key = slice_to 7 key ++ hidden ++ slice_from (-4) key
           /\ length hidden = (length key - 11)%nat).
Proof.
  assert (Hto : slice_to 7 key = take 7 key).
  { unfold slice_to. simpl.
    destruct (decide (7 <= length key)%nat).
    - f_equal. lia.
    - rewrite !take_ge by lia. done. }
  assert (Hfrom : slice_from (-4) key = drop (length key - 4) key).
  { apply (slice_from_last 4). lia. }
  unfold SetupKey.mask. rewrite Hto, Hfrom. split_and!.
  - intros Hlen. rewrite take_ge by lia. by eexists.
  - intros Hlen. exists (take (7 - (length key - 4)) (drop (length key - 4) key)).
    rewrite <- (take_drop (7 - (length key - 4)) (drop (length key - 4) key))
      at 1.
    rewrite drop_drop. do 2 f_equal. lia.
  - intros Hlen. split.
    + rewrite !length_app, length_take, length_drop.
      change (length (of_ascii "...")) with 3%nat. lia.
    + exists (take (length key - 11) (drop 7 key)). split.
      * rewrite <- (take_drop 7 key) at 1. f_equal.
        rewrite <- (take_drop (length key - 11) (drop 7 key)) at 1.
        f_equal. rewrite drop_drop. f_equal. lia.
      * rewrite length_take, length_drop. lia.
Qed.

(** ** The further properties on concrete sessions *)

Ltac in_list :=
  apply list_elem_of_In; vm_compute;
  repeat first [left; reflexivity | right].

Lemma clean_no_pictograph_witness :
  67 ∈ _clean_for_speech sanitize_example /\ emoji_class 67 = false.
Proof.
  assert (Hin : 67 ∈ _clean_for_speech sanitize_example) by in_list.
  split; [exact Hin|]. exact (clean_no_pictograph _ _ Hin).
Defined.

Lemma speech_only_after_answer_witness :
  let new := trace (@run helpful a_session fresh) in
  let answer := of_ascii "Light bounces in the air!" in
  trace (@run helpful a_session fresh) = trace fresh ++ new
  /\ new = take 4 new ++ SpeechCall answer :: drop 5 new
  /\ answer <> []
  /\ exists before' a,
       take 4 new = before' ++ [Printed (Answer a)]
       /\ answer = _clean_for_speech a.
Proof.
  intros new answer.
  assert (H1 : trace (@run helpful a_session fresh) = trace fresh ++ new)
    by reflexivity.
  assert (H2 : new = take 4 new ++ SpeechCall answer :: drop 5 new)
    by (by vm_compute).
  split; [exact H1|]. split; [exact H2|].
  exact (@speech_only_after_answer helpful a_session fresh new (take 4 new)
           answer (drop 5 new) H1 H2).
Defined.

Lemma requests_bounded_witness :
  let new := trace (@run helpful a_session fresh) in
  let messages := [Message system (@SYSTEM_PROMPT helpful);
                   Message user a_question] in
  trace (@run helpful a_session fresh) = trace fresh ++ new
  /\ CompletionCall messages ∈ new
  /\ exists window question,
       messages = Message system (@SYSTEM_PROMPT helpful) :: window
       /\ (1 <= length window <= 6)%nat
       /\ last window = Some (Message user question)
       /\ strip question <> [].
Proof.
  intros new messages.
  assert (H1 : trace (@run helpful a_session fresh) = trace fresh ++ new)
    by reflexivity.
  assert (H2 : CompletionCall messages ∈ new) by in_list.
  split; [exact H1|]. split; [exact H2|].
  exact (@requests_bounded helpful a_session fresh new messages H1 H2).
Defined.

Lemma calls_per_input_witness :
  let new := trace (@run helpful a_session fresh) in
  trace (@run helpful a_session fresh) = trace fresh ++ new
  /\ (count is_completion_call new <= 3)%nat
  /\ (count is_speech_call new <= 3)%nat
  /\ (count is_transcription new <= 3)%nat.
Proof.
  intros new.
  assert (H1 : trace (@run helpful a_session fresh) = trace fresh ++ new)
    by reflexivity.
  split; [exact H1|].
  exact (@calls_per_input helpful a_session fresh new H1).
Defined.

Lemma muted_loop_silent_witness :
  let new := trace (@run helpful a_session hushed) in
  muted (self hushed) = true
  /\ trace (@run helpful a_session hushed) = trace hushed ++ new
  /\ muted (self (@run helpful a_session hushed)) = true
  /\ count is_speech_call new = 0%nat.
Proof.
  intros new.
  assert (H1 : trace (@run helpful a_session hushed) = trace hushed ++ new)
    by reflexivity.
  assert (H2 : Forall (fun ev => forall line,
                          ev = Line line ->
                          @lower helpful (strip line) <> of_ascii "unmute")
                 a_session).
  { repeat constructor; intros line [= <-] Heq; vm_compute in Heq;
      discriminate Heq. }
  split; [reflexivity|]. split; [exact H1|].
  exact (@muted_loop_silent helpful a_session hushed new eq_refl H2 H1).
Defined.

Lemma session_key_kept_witness :
  __init__ (Some a_key) NoFile None []
  = (Returned (Agent a_key [] false), [Printed Banner])
  /\ api_key (self (@run helpful a_session
                      (World (Agent a_key [] false) [Printed Banner])))
     = a_key.
Proof.
  assert (H1 : __init__ (Some a_key) NoFile None []
               = (Returned (Agent a_key [] false), [Printed Banner]))
    by reflexivity.
  split; [exact H1|].
  destruct (@session_key_kept helpful (Some a_key) NoFile None [] _ _
              a_session H1) as (_ & _ & _ & Hkey).
  exact Hkey.
Defined.

Lemma history_stays_paired_witness :
  answers_follow false (conversation_history (self fresh)) = true
  /\ answers_follow false
       (conversation_history (self (@run helpful a_session fresh))) = true.
Proof.
  split; [reflexivity|].
  exact (@history_stays_paired helpful a_session fresh eq_refl).
Defined.

Lemma nothing_after_stop_witness :
  @stops helpful (Line (of_ascii " Quit "))
  /\ @run helpful ([Line a_line] ++ Line (of_ascii " Quit ") :: a_session) fresh
     = @run helpful ([Line a_line] ++ [Line (of_ascii " Quit ")]) fresh.
Proof.
  assert (H1 : @stops helpful (Line (of_ascii " Quit "))) by in_list.
  split; [exact H1|].
  exact (@nothing_after_stop helpful [Line a_line] a_session _ fresh H1).
Defined.

Lemma voice_heard_nothing_witness :
  @lower failing (strip (of_ascii "Voice")) = of_ascii "voice"
  /\ (@run_body failing (of_ascii "Voice") fresh).1 = Next
  /\ self (@run_body failing (of_ascii "Voice") fresh).2 = self fresh.
Proof.
  split; [reflexivity|].
  assert (H2 : @SPEECH_RECOGNITION_AVAILABLE failing = true ->
               forall text,
                 @transcribe failing (trace fresh ++ [Printed Listening])
                 = Recognized text ->
                 text = []).
  { intros _ text Heq. discriminate Heq. }
  destruct (@voice_heard_nothing failing (of_ascii "Voice") fresh eq_refl H2)
    as (Hflow & Hself & _).
  split; [exact Hflow|exact Hself].
Defined.

Lemma blank_voice_is_spoken_witness :
  @lower mumbling (strip (of_ascii "voice")) = of_ascii "voice"
  /\ @transcribe mumbling (trace hushed ++ [Printed Listening])
     = Recognized (of_ascii "   ")
  /\ strip (of_ascii "   ") = []
  /\ self (@run_body mumbling (of_ascii "voice") hushed).2 = self hushed
  /\ exists ev,
       aftermath ev
       /\ trace (@run_body mumbling (of_ascii "voice") fresh).2
          = trace fresh
            ++ [Printed Listening; Transcription; Printed Processing;
                Printed (YouSaid (of_ascii "   ")); Printed Thinking;
                Printed (Answer please_ask)] ++ [SpeechCall please_ask; ev].
Proof.
  split; [reflexivity|]. split; [reflexivity|]. split; [reflexivity|].
  assert (Hne : of_ascii "   " <> []) by discriminate.
  split.
  { exact (proj1 (proj2 (@blank_voice_is_spoken mumbling (of_ascii "voice")
                           (of_ascii "   ") hushed eq_refl eq_refl eq_refl
                           Hne eq_refl))). }
  destruct (@blank_voice_is_spoken mumbling (of_ascii "voice")
              (of_ascii "   ") fresh eq_refl eq_refl eq_refl Hne eq_refl)
    as (_ & _ & speech & Htrace & _ & Hspeech).
  destruct (Hspeech eq_refl) as (ev & Hev & ->).
  exists ev. split; [exact Hev|exact Htrace].
Defined.

Lemma clear_forgets_context_witness :
  let talked := (@run_body helpful a_line fresh).2 in
  let cleared := (@run_body helpful (of_ascii "Clear") talked).2 in
  @lower helpful (strip (of_ascii "Clear")) = of_ascii "clear"
  /\ length (conversation_history (self talked)) = 2%nat
  /\ exists after,
       trace (@run_body helpful a_line cleared).2
       = trace cleared
         ++ Printed Thinking
            :: CompletionCall [Message system (@SYSTEM_PROMPT helpful);
                               Message user a_question]
            :: after.
Proof.
  intros talked cleared.
  split; [reflexivity|]. split; [reflexivity|].
  exact (proj2 (@clear_forgets_context helpful (of_ascii "Clear") a_line
                  talked eq_refl eq_refl eq_refl)).
Defined.

Lemma history_grows_unless_clear_witness :
  @lower helpful (strip a_line) <> of_ascii "clear"
  /\ conversation_history (self fresh)
       `prefix_of` conversation_history (self (@run_body helpful a_line fresh).2).
Proof.
  assert (H1 : @lower helpful (strip a_line) <> of_ascii "clear").
  { intros Heq. vm_compute in Heq. discriminate Heq. }
  split; [exact H1|].
  exact (proj1 (@history_grows_unless_clear helpful a_line fresh H1)).
Defined.

Lemma config_key_is_trimmed_witness :
  load_api_key_from_config padded_config [] = (Some (of_ascii "sk-test"), [])
  /\ trimmed (of_ascii "sk-test") = true
  /\ exists stored,
       record_credential padded_config = Some stored
       /\ of_ascii "sk-test" = strip stored.
Proof.
  assert (H1 : load_api_key_from_config padded_config []
               = (Some (of_ascii "sk-test"), [])) by (by vm_compute).
  split; [exact H1|].
  destruct (config_key_is_trimmed padded_config [] _ _ H1)
    as (_ & Htrim & _ & Hstored).
  split; [exact Htrim|exact Hstored].
Defined.

Lemma typed_key_round_trip_witness :
  let m := Some (InLoop 2 true) in
  (load_api_key_from_config NoFile []).1 = None
  /\ truthy_opt None = false
  /\ strip padded_key <> []
  /\ @config_write helpful
       ((load_api_key_from_config NoFile []).2
        ++ [Printed KeyNotFound; Printed KeyPrompt]) = Returned tt
  /\ (exists after,
        (@main helpful NoFile None (Line padded_key :: a_session) m).2
        = (load_api_key_from_config NoFile []).2
          ++ [Printed KeyNotFound; Printed KeyPrompt;
              ConfigWrite (strip padded_key); Printed KeySaved] ++ after)
  /\ load_api_key_from_config (saved_config (strip padded_key)) []
     = (Some (strip padded_key), []).
Proof.
  intros m.
  assert (H3 : strip padded_key <> []) by discriminate.
  split; [reflexivity|]. split; [reflexivity|]. split; [exact H3|].
  split; [reflexivity|].
  exact (@typed_key_round_trip helpful NoFile None padded_key a_session [] m
           eq_refl eq_refl H3 eq_refl).
Defined.

Lemma key_found_no_write_witness :
  truthy_opt (Some a_key) = true
  /\ ConfigWrite a_key
       ∉ (@main helpful NoFile (Some a_key) a_session
            (Some (InConstruction AValueError))).2.
Proof.
  split; [reflexivity|].
  exact (@key_found_no_write helpful NoFile (Some a_key) a_session
           (Some (InConstruction AValueError)) a_key (or_intror eq_refl)).
Defined.

Lemma setup_writes_carefully_witness :
  let events := (SetupKey.main ascii_lower writes NoFile [Line quoted_line]).2 in
  SetupKey.Written (of_ascii "sk-abc") ∈ events
  /\ of_ascii "sk-abc" = SetupKey.strip_chars SetupKey.quotes (strip quoted_line)
  /\ exists choices typed rest,
       [Line quoted_line] = choices ++ Line typed :: rest
       /\ of_ascii "sk-abc" = SetupKey.strip_chars SetupKey.quotes (strip typed)
       /\ choices = [].
Proof.
  intros events.
  assert (H1 : SetupKey.Written (of_ascii "sk-abc") ∈ events) by in_list.
  split; [exact H1|]. split; [reflexivity|].
  destruct (setup_writes_carefully ascii_lower writes NoFile
              [Line quoted_line] _ H1)
    as (_ & _ & (choices & typed & rest & Hinputs & Hkey & _ & Hchoices) & _).
  exists choices, typed, rest.
  split; [exact Hinputs|]. split; [exact Hkey|exact Hchoices].
Defined.

Lemma setup_key_read_back_witness :
  let events := (SetupKey.main ascii_lower writes NoFile [Line quoted_line]).2 in
  SetupKey.Written (of_ascii "sk-abc") ∈ events
  /\ SetupKey.startswith (of_ascii "sk-") (of_ascii "sk-abc") = true
  /\ load_api_key_from_config (saved_config (of_ascii "sk-abc")) []
     = (Some (strip (of_ascii "sk-abc")), []).
Proof.
  intros events.
  assert (H1 : SetupKey.Written (of_ascii "sk-abc") ∈ events) by in_list.
  split; [exact H1|]. split; [reflexivity|].
  exact (proj1 (proj1 (setup_key_read_back ascii_lower writes NoFile
                         [Line quoted_line] _ [] H1) eq_refl)).
Defined.

Lemma mask_shows_short_keys_witness :
  (length (of_ascii "sk-abc") <= 7)%nat
  /\ of_ascii "sk-abc" `prefix_of` SetupKey.mask (of_ascii "sk-abc")
  /\ (11 <= length boom)%nat
  /\ length (SetupKey.mask boom) = 14%nat.
Proof.
  assert (H1 : (length (of_ascii "sk-abc") <= 7)%nat) by (vm_compute; lia).
  assert (H2 : (11 <= length boom)%nat) by (vm_compute; lia).
  split; [exact H1|].
  split; [exact (proj1 (mask_shows_short_keys (of_ascii "sk-abc")) H1)|].
  split; [exact H2|].
  exact (proj1 (proj2 (proj2 (mask_shows_short_keys boom)) H2)).
Defined.
